(** * Rocket Retro Rumble: the simulation core, embedded and verified

    The development follows the TypeScript sources of the game:

    - [client/src/lib/constants.ts]: the modules [ROCKET], [TRACK] and
      [CAMERA];
    - [client/src/lib/stores/useRocketGame.tsx]: the state ([GameState])
      and the actions of the store, under their own names;
    - [client/src/lib/collisionDetection.ts]: [detectCollisions] and the
      four checks it calls;
    - [client/src/lib/trackGenerator.ts] and [client/src/lib/physics.ts];
    - the frame callback of the [Game] component ([gameFrame]), with the
      wall clock and the pending [setTimeout] calls of the browser
      ([World], [step], [run]), and that of the [GameCamera] component.

    JavaScript numbers are IEEE binary64 values.  The code is written once
    over an interface [Number] of the arithmetic it uses and is run at two
    instances: [Float64] (the kernel's binary64 floats, which is what the
    program computes with) and [Exact] (the real numbers, arithmetic
    without rounding).  Segment, hazard and checkpoint ids, the score, the
    lap counter and the health are integers in every run of the program
    and are kept in [Z].  Vectors are values: the sources mutate
    [THREE.Vector3] objects in place, and every place that reads one is
    given the value it holds at that point.

    [useRocketGame.tsx] imports [GamePhase], [ROCKET] and [TRACK] from
    the constants and nothing else, and uses [Controls], [HAZARD_TYPES]
    and [POWERUP_TYPES]: evaluating one of these names throws a
    [ReferenceError].  A call that throws is modelled as such
    ([Completion]); an updater that throws inside [set] leaves the store
    as it was. *)

From Stdlib Require Import ZArith List Bool Lia.
From Stdlib Require Import Reals Lra.
From Stdlib Require Import Floats.
Import ListNotations.


(* ================================================================== *)
(** ** Numbers *)

(** The operations on [number] values that the sources use. *)
Class Number : Type := {
  num    : Type;
  nofZ   : Z -> num;              (* an integer literal *)
  nadd   : num -> num -> num;     (* a + b *)
  nsub   : num -> num -> num;     (* a - b *)
  nopp   : num -> num;            (* - a *)
  nmul   : num -> num -> num;     (* a * b *)
  ndiv   : num -> num -> num;     (* a / b *)
  nsqrt  : num -> num;            (* Math.sqrt(a) *)
  nltb   : num -> num -> bool;    (* a < b *)
  nleb   : num -> num -> bool;    (* a <= b *)
  nmax   : num -> num -> num;     (* Math.max(a, b) *)
  nmin   : num -> num -> num;     (* Math.min(a, b) *)
  nltInfinity : num -> bool;      (* a < Infinity *)
  nfloor : num -> Z               (* Math.floor(a), an integer *)
}.

Declare Scope num_scope.
Delimit Scope num_scope with num.
Infix "+" := nadd : num_scope.
Infix "-" := nsub : num_scope.
Infix "*" := nmul : num_scope.
Infix "/" := ndiv : num_scope.
Infix "<?" := nltb : num_scope.
Infix "<=?" := nleb : num_scope.
Notation "a >? b" := (nltb b a) : num_scope.
Notation "a >=? b" := (nleb b a) : num_scope.
Local Open Scope num_scope.

Section NumberOps.
Context {N : Number}.

  (** A decimal literal [n/d], e.g. [0.98] is [lit 98 100]: the quotient of
      two exactly represented integers, rounded once. *)
Definition lit (n d : Z) : num := nofZ n / nofZ d.

  (** JavaScript truthiness of a number: [0] and [NaN] are falsy. *)
Definition falsy (a : num) : bool := negb (a <? nofZ 0) && negb (nofZ 0 <? a).

  (** [a || b] on numbers. *)
Definition nor (a b : num) : num := if falsy a then b else a.

  (** [a === 0] *)
Definition isZero (a : num) : bool := (nofZ 0 <=? a) && (a <=? nofZ 0).

End NumberOps.

(** *** Binary64 *)

Module F64.
Local Open Scope float_scope.

Definition ofZ (z : Z) : float :=
    match z with
    | Z0 => 0
    | Zpos _ => PrimFloat.of_uint63 (Uint63.of_Z z)
    | Zneg p => - PrimFloat.of_uint63 (Uint63.of_Z (Zpos p))
    end.

  (** [Math.floor] through the float's sign, mantissa and exponent; [0] on
      [NaN] and the infinities, which the program never floors. *)
Definition floor (f : float) : Z :=
    match Prim2SF f with
    | SpecFloat.S754_finite s m e =>
        let v := if s then Zneg m else Zpos m in
        match e with
        | Zneg k => Z.div v (Z.pow_pos 2 k)
        | _ => (v * 2 ^ e)%Z
        end
    | _ => 0%Z
    end.

  (** [Math.max] and [Math.min]: [NaN] when an argument is [NaN], and
      [+0] counts as larger than [-0]. *)
Definition max (a b : float) : float :=
    if is_nan a then a else if is_nan b then b
    else if a <? b then b else if b <? a then a
    else if get_sign a then b else a.
Definition min (a b : float) : float :=
    if is_nan a then a else if is_nan b then b
    else if b <? a then b else if a <? b then a
    else if get_sign a then a else b.

  (** [a < Infinity]: false for [NaN] and for [Infinity] itself. *)
Definition ltInfinity (a : float) : bool := a <? infinity.
End F64.

#[export] Instance Float64 : Number := {|
  num := float;
  nofZ := F64.ofZ;
  nadd := PrimFloat.add;
  nsub := PrimFloat.sub;
  nopp := PrimFloat.opp;
  nmul := PrimFloat.mul;
  ndiv := PrimFloat.div;
  nsqrt := PrimFloat.sqrt;
  nltb := PrimFloat.ltb;
  nleb := PrimFloat.leb;
  nmax := F64.max;
  nmin := F64.min;
  nltInfinity := F64.ltInfinity;
  nfloor := F64.floor
|}.

(** *** Real numbers

    The real numbers have no [NaN] and no [Infinity], and a quotient by 0
    is not what the program computes: a theorem in exact arithmetic about
    a quotient whose divisor can be 0 carries the hypothesis that it is
    not. *)

Module Rnum.
Definition ltb (a b : R) : bool := if Rlt_dec a b then true else false.
Definition leb (a b : R) : bool := if Rle_dec a b then true else false.
Definition max (a b : R) : R := if ltb a b then b else a.
Definition min (a b : R) : R := if ltb b a then b else a.
Definition floor (a : R) : Z := Int_part a.
End Rnum.

#[export] Instance Exact : Number := {|
  num := R;
  nofZ := IZR;
  nadd := Rplus;
  nsub := Rminus;
  nopp := Ropp;
  nmul := Rmult;
  ndiv := Rdiv;
  nsqrt := R_sqrt.sqrt;
  nltb := Rnum.ltb;
  nleb := Rnum.leb;
  nmax := Rnum.max;
  nmin := Rnum.min;
  nltInfinity := fun _ => true;
  nfloor := Rnum.floor
|}.

(* ================================================================== *)
(** ** The part of three.js the sources call *)

Section Three.
Context {N : Number}.

  (** [THREE.Vector3] *)
Record Vector3 : Type := vec3 { vx : num; vy : num; vz : num }.

Definition vadd (a b : Vector3) : Vector3 :=
    vec3 (vx a + vx b) (vy a + vy b) (vz a + vz b).
Definition vsub (a b : Vector3) : Vector3 :=
    vec3 (vx a - vx b) (vy a - vy b) (vz a - vz b).
Definition multiplyScalar (a : Vector3) (s : num) : Vector3 :=
    vec3 (vx a * s) (vy a * s) (vz a * s).
Definition addScaledVector (a v : Vector3) (s : num) : Vector3 :=
    vec3 (vx a + vx v * s) (vy a + vy v * s) (vz a + vz v * s).
Definition dot (a b : Vector3) : num :=
    vx a * vx b + vy a * vy b + vz a * vz b.
Definition lengthSq (a : Vector3) : num := dot a a.
Definition vlength (a : Vector3) : num := nsqrt (lengthSq a).
Definition divideScalar (a : Vector3) (s : num) : Vector3 :=
    multiplyScalar a (nofZ 1 / s).
  (** [normalize() { return this.divideScalar(this.length() || 1) }] *)
Definition normalize (a : Vector3) : Vector3 :=
    divideScalar a (nor (vlength a) (nofZ 1)).
Definition distanceTo (a b : Vector3) : num := vlength (vsub a b).
Definition lerpVectors (a b : Vector3) (t : num) : Vector3 :=
    vec3 (vx a + (vx b - vx a) * t)
         (vy a + (vy b - vy a) * t)
         (vz a + (vz b - vz a) * t).
Definition projectOnVector (a v : Vector3) : Vector3 :=
    let denominator := lengthSq v in
    if isZero denominator then vec3 (nofZ 0) (nofZ 0) (nofZ 0)
    else multiplyScalar v (dot v a / denominator).
Definition projectOnPlane (a planeNormal : Vector3) : Vector3 :=
    vsub a (projectOnVector a planeNormal).

  (** [THREE.Box3] *)
Record Box3 : Type := box3 { bmin : Vector3; bmax : Vector3 }.

Definition setFromCenterAndSize (center size : Vector3) : Box3 :=
    let halfSize := multiplyScalar size (lit 5 10) in
    box3 (vsub center halfSize) (vadd center halfSize).

Definition intersectsBox (this box : Box3) : bool :=
    (vx (bmax box) >=? vx (bmin this)) && (vx (bmin box) <=? vx (bmax this)) &&
    (vy (bmax box) >=? vy (bmin this)) && (vy (bmin box) <=? vy (bmax this)) &&
    (vz (bmax box) >=? vz (bmin this)) && (vz (bmin box) <=? vz (bmax this)).

  (** [THREE.Plane] *)
Record Plane : Type := plane { pnormal : Vector3; pconstant : num }.

Definition setFromNormalAndCoplanarPoint (normal point : Vector3) : Plane :=
    plane normal (nopp (dot point normal)).
Definition distanceToPoint (p : Plane) (point : Vector3) : num :=
    dot (pnormal p) point + pconstant p.

  (** [THREE.Line3.closestPointToPoint(point, true, target)]; on a line
      of length 0 the parameter is [0 / 0]. *)
Definition clamp (value lo hi : num) : num := nmax lo (nmin hi value).
Definition closestPointToPoint (lstart lend point : Vector3) : Vector3 :=
    let startP := vsub point lstart in
    let startEnd := vsub lend lstart in
    let t := clamp (dot startEnd startP / dot startEnd startEnd) (nofZ 0) (nofZ 1) in
    vadd (multiplyScalar (vsub lend lstart) t) lstart.
End Three.

Arguments Vector3 {N}.
Arguments Box3 {N}.
Arguments Plane {N}.

(** The rotation API of three.js ([Quaternion], [Euler]): trigonometry,
    left abstract.  The sources use it to steer the rocket and to bend the
    track; every theorem below holds for any implementation of it. *)
Class Rotations {N : Number} : Type := {
  Quaternion : Type;
  Euler : Type;
  euler0 : Euler;                                   (* new Euler(0, 0, 0) *)
  quaternion1 : Quaternion;                         (* new Quaternion() *)
  setFromAxisAngle : Vector3 -> num -> Quaternion;
  qmultiply : Quaternion -> Quaternion -> Quaternion;
  setFromEuler : Euler -> Quaternion;
  setFromQuaternion : Quaternion -> Euler;
  applyQuaternion : Vector3 -> Quaternion -> Vector3;
  applyEuler : Vector3 -> Euler -> Vector3
}.

(* ================================================================== *)
(** ** [Math.random]: the stream of draws still to come *)

Section Random.
Context {N : Number}.

Definition RNG : Type := nat -> num.
Definition Rand (A : Type) : Type := RNG -> A * RNG.

Definition ret {A} (a : A) : Rand A := fun g => (a, g).
Definition bind {A B} (c : Rand A) (k : A -> Rand B) : Rand B :=
  fun g => let (a, g') := c g in k a g'.
(** [Math.random()] *)
Definition random : Rand num := fun g => (g 0%nat, fun n => g (S n)).
End Random.

Notation "x <- c ;; k" := (bind c (fun x => k))
  (at level 61, c at next level, right associativity).

(* ================================================================== *)
(** ** Calls that throw *)

(** The names [useRocketGame.tsx] uses without importing them. *)
Inductive ReferenceError : Type :=
| Controls_is_not_defined
| HAZARD_TYPES_is_not_defined
| POWERUP_TYPES_is_not_defined.

(** How a call ends: it returns a value, or it throws. *)
Inductive Completion (A : Type) : Type :=
| Normal (a : A)
| Throw (e : ReferenceError).
Arguments Normal {A} a.
Arguments Throw {A} e.

Section Throwing.
Context {N : Number}.

(** [throw] after the draws made so far, and sequencing that stops at the
    first call that throws. *)
Definition throw {A} (e : ReferenceError) : Rand (Completion A) := ret (Throw e).
Definition bindC {A B} (c : Rand (Completion A)) (k : A -> Rand (Completion B))
    : Rand (Completion B) :=
  fun g => let (r, g') := c g in
           match r with
           | Normal a => k a g'
           | Throw e => (Throw e, g')
           end.
End Throwing.

Notation "x <-- c ;; k" := (bindC c (fun x => k))
  (at level 61, c at next level, right associativity).

(* ================================================================== *)
(** ** constants.ts *)

Inductive GamePhase : Type := READY | PLAYING | FINISHED | GAME_OVER.

Definition GamePhase_eqb (a b : GamePhase) : bool :=
  match a, b with
  | READY, READY | PLAYING, PLAYING | FINISHED, FINISHED
  | GAME_OVER, GAME_OVER => true
  | _, _ => false
  end.

(** The keys of [Controls], as the keyboard state read once per frame. *)
Record Controls : Type := mkControls {
  forward : bool; backward : bool; leftward : bool; rightward : bool;
  pitchUp : bool; pitchDown : bool; boost : bool; restart : bool
}.

(** [HAZARD_TYPES] and [POWERUP_TYPES]; [*_OTHER] stands for any other
    value of the [type] field. *)
Inductive HazardType : Type := ASTEROID | TURBULENCE | GRAVITY_ANOMALY | HAZARD_OTHER.
Inductive PowerUpType : Type := BOOST | SHIELD | POWERUP_OTHER.

Module ROCKET.
Section Rocket.
Context {N : Number}.
Definition ACCELERATION : num := lit 2 100.
Definition ROTATION_SPEED : num := lit 3 100.
Definition PITCH_SPEED : num := lit 2 100.
Definition DRAG : num := lit 98 100.
Definition BOOST_DURATION : num := nofZ 2000.
Definition BOOST_COOLDOWN : num := nofZ 5000.
Definition COLLISION_DAMAGE : Z := 10.
End Rocket.
End ROCKET.

Module TRACK.
Section Track.
Context {N : Number}.
Definition SEGMENT_LENGTH : num := nofZ 100.
Definition WIDTH : num := nofZ 30.
Definition CURVATURE_MAX : num := lit 3 10.
Definition PITCH_MAX : num := lit 2 10.
Definition CHECKPOINT_INTERVAL : Z := 3.
End Track.
End TRACK.

(* ================================================================== *)
(** ** stores/useRocketGame.tsx: the state *)

Section State.
Context {N : Number} {Rot : Rotations}.

Record RocketState : Type := mkRocket {
  position : Vector3;
  rotation : Euler;
  velocity : Vector3;
  speed : num;
  health : Z;
  isShielded : bool;
  isBoosting : bool;
  boostCooldown : bool;
  boostTimeRemaining : num;
  shieldTimeRemaining : num
}.

Record TrackSegment : Type := mkSegment {
  s_start : Vector3;
  s_end : Vector3;
  s_direction : Vector3;
  s_width : num;
  s_curvature : num;
  s_pitch : num;
  s_isCheckpoint : bool;
  s_id : Z
}.

Record Hazard : Type := mkHazard {
  h_type : HazardType;
  h_position : Vector3;
  h_size : num;
  h_id : Z;
  h_active : bool
}.

Record PowerUp : Type := mkPowerUp {
  p_type : PowerUpType;
  p_position : Vector3;
  p_size : num;
  p_id : Z;
  p_active : bool
}.

(** The data fields of [GameState] (its other fields are the actions). *)
Record GameState : Type := mkState {
  phase : GamePhase;
  time : num;
  score : Z;
  lap : Z;
  lapTimes : list num;
  bestLapTime : option num;
  lastCheckpointId : Z;
  rocket : RocketState;
  track : list TrackSegment;
  hazards : list Hazard;
  powerUps : list PowerUp;
  cameraTarget : Vector3
}.

(** What a collision object carries in [userData], and its bounding box
    ([new THREE.Box3().setFromObject(obj)], computed from the mesh). *)
Inductive UserData : Type :=
| UHazard
| UPowerup (data : PowerUp)
| UCheckpoint (checkpointId : Z)
| UTrackBoundary
| UOther.

Record Object3D : Type := mkObject {
  collidable : bool;
  userData : UserData;
  objBox : Box3
}.

(** Deferred calls: what [setTimeout] was given. *)
Inductive Task : Type :=
| ClearBoostCooldown            (* set rocket.boostCooldown to false *)
| EndGame (won : bool).         (* get().endGame(won) *)

Record Timeout : Type := setTimeout { task : Task; delay : num }.

(** Partial updates [{ field: value }] merged into the state by [set]. *)
Definition with_phase (p : GamePhase) (s : GameState) : GameState :=
  mkState p (time s) (score s) (lap s) (lapTimes s) (bestLapTime s)
    (lastCheckpointId s) (rocket s) (track s) (hazards s) (powerUps s)
    (cameraTarget s).
Definition with_time (t : num) (s : GameState) : GameState :=
  mkState (phase s) t (score s) (lap s) (lapTimes s) (bestLapTime s)
    (lastCheckpointId s) (rocket s) (track s) (hazards s) (powerUps s)
    (cameraTarget s).
Definition with_rocket (r : RocketState) (s : GameState) : GameState :=
  mkState (phase s) (time s) (score s) (lap s) (lapTimes s) (bestLapTime s)
    (lastCheckpointId s) r (track s) (hazards s) (powerUps s)
    (cameraTarget s).
Definition with_track (t : list TrackSegment) (h : list Hazard)
    (p : list PowerUp) (s : GameState) : GameState :=
  mkState (phase s) (time s) (score s) (lap s) (lapTimes s) (bestLapTime s)
    (lastCheckpointId s) (rocket s) t h p (cameraTarget s).

(** Updates of the local copy [rocket = {...state.rocket}]. *)
Definition r_with_boost (b c : bool) (t : num) (r : RocketState) : RocketState :=
  mkRocket (position r) (rotation r) (velocity r) (speed r) (health r)
    (isShielded r) b c t (shieldTimeRemaining r).
Definition r_with_shield (b : bool) (t : num) (r : RocketState) : RocketState :=
  mkRocket (position r) (rotation r) (velocity r) (speed r) (health r)
    b (isBoosting r) (boostCooldown r) (boostTimeRemaining r) t.

(** The rocket of the initial state, and of [startGame] and [restartGame]
    (which overwrite every field of [...state.rocket]). *)
Definition rocket0 : RocketState :=
  {| position := vec3 (nofZ 0) (nofZ 2) (nofZ 0);
     rotation := euler0;
     velocity := vec3 (nofZ 0) (nofZ 0) (nofZ 0);
     speed := nofZ 0;
     health := 100;
     isShielded := false;
     isBoosting := false;
     boostCooldown := false;
     boostTimeRemaining := nofZ 0;
     shieldTimeRemaining := nofZ 0 |}.

(** "Initial game state" *)
Definition initialState : GameState :=
  {| phase := READY;
     time := nofZ 0;
     score := 0;
     lap := 1;
     lapTimes := [];
     bestLapTime := None;
     lastCheckpointId := 0;
     rocket := rocket0;
     track := [];
     hazards := [];
     powerUps := [];
     cameraTarget := vec3 (nofZ 0) (nofZ 0) (nofZ 0) |}.

End State.

(** [set(updater)]: the store after the call.  An updater that throws
    leaves the store as it was. *)
Definition commit {N : Number} {Rot : Rotations}
    (c : Completion GameState) (state : GameState) : GameState :=
  match c with
  | Normal s => s
  | Throw _ => state
  end.

(* ================================================================== *)
(** ** stores/useRocketGame.tsx: the actions *)

Section Actions.
Context {N : Number} {Rot : Rotations}.

Definition axisX : Vector3 := vec3 (nofZ 1) (nofZ 0) (nofZ 0).
Definition axisY : Vector3 := vec3 (nofZ 0) (nofZ 1) (nofZ 0).

(** [Object.values(HAZARD_TYPES)[k]] and [Object.values(POWERUP_TYPES)[k]] *)
Definition hazardTypes (k : Z) : HazardType :=
  if (k =? 0)%Z then ASTEROID
  else if (k =? 1)%Z then TURBULENCE
  else if (k =? 2)%Z then GRAVITY_ANOMALY
  else HAZARD_OTHER.
Definition powerUpTypes (k : Z) : PowerUpType :=
  if (k =? 0)%Z then BOOST
  else if (k =? 1)%Z then SHIELD
  else POWERUP_OTHER.

Definition len {A} (l : list A) : Z := Z.of_nat (List.length l).

(** [track[track.length - 1]], [None] for [undefined]. *)
Definition lastOf (l : list TrackSegment) : option TrackSegment :=
  last (map Some l) None.

(** [cond ? (Math.random() - 0.5) * max : 0] *)
Definition randomBend (cond : bool) (max : num) : Rand num :=
  if cond then (r <- random ;; ret ((r - lit 5 10) * max)) else ret (nofZ 0).

(** The direction of the next segment: the previous one turned by
    [curvature] about y and by [pitch] about x, normalised. *)
Definition bend (d : Vector3) (curvature pitch : num) : Vector3 :=
  let rotationY := setFromAxisAngle axisY curvature in
  let rotationX := setFromAxisAngle axisX pitch in
  normalize (applyQuaternion (applyQuaternion d rotationY) rotationX).

(** A random position within the segment: [t] along it, then an offset of
    up to [spread] times the track width from the centre line. *)
Definition scatter (seg : TrackSegment) (spread : num) : Rand Vector3 :=
  r <- random ;;
  let t := r * lit 8 10 + lit 1 10 in
  let pos := lerpVectors (s_start seg) (s_end seg) t in
  ox <- random ;;
  oz <- random ;;
  let offsetDir := normalize (vec3 (ox - lit 5 10) (nofZ 0) (oz - lit 5 10)) in
  r' <- random ;;
  let offset := multiplyScalar offsetDir (r' * (TRACK.WIDTH * spread)) in
  ret (vadd pos offset).

Definition raise (p : Vector3) : Vector3 := vec3 (vx p) (vy p + nofZ 3) (vz p).

(** The segment that continues [lastSegment] with the given bends and id. *)
Definition nextSegment (lastSegment : TrackSegment) (curvature pitch : num)
    (id : Z) : TrackSegment :=
  let newDirection := bend (s_direction lastSegment) curvature pitch in
  let newEnd := vadd (s_end lastSegment)
                     (multiplyScalar newDirection TRACK.SEGMENT_LENGTH) in
  {| s_start := s_end lastSegment;
     s_end := newEnd;
     s_direction := newDirection;
     s_width := TRACK.WIDTH;
     s_curvature := curvature;
     s_pitch := pitch;
     s_isCheckpoint := (Z.rem id TRACK.CHECKPOINT_INTERVAL =? 0)%Z;
     s_id := id |}.

(** [cond && Math.random() < p]: the draw is made only when [cond] holds. *)
Definition chance (cond : bool) (p : num) : Rand bool :=
  if cond then (r <- random ;; ret (r <? p)) else ret false.

(** *** initializeTrack *)

Definition startSegment : TrackSegment :=
  {| s_start := vec3 (nofZ 0) (nofZ 0) (nofZ 0);
     s_end := vec3 (nofZ 0) (nofZ 0) (nopp TRACK.SEGMENT_LENGTH);
     s_direction := vec3 (nofZ 0) (nofZ 0) (nopp (nofZ 1));
     s_width := TRACK.WIDTH;
     s_curvature := nofZ 0;
     s_pitch := nofZ 0;
     s_isCheckpoint := true;
     s_id := 0 |}.

(** The accumulators of the loop: the three arrays and [lastSegment]. *)
Record InitAcc : Type := mkInit {
  initialTrack : list TrackSegment;
  initialHazards : list Hazard;
  initialPowerUps : list PowerUp;
  lastSegment : TrackSegment
}.

(** One iteration of [for (let i = 1; i < 6; i++)].  When a hazard or a
    power-up is to be added, its position is drawn and then
    [Object.values(HAZARD_TYPES)] or [Object.values(POWERUP_TYPES)]
    throws: no object is ever pushed. *)
Definition initStep (i : Z) (a : InitAcc) : Rand (Completion InitAcc) :=
  curvature <- randomBend (2 <? i)%Z TRACK.CURVATURE_MAX ;;
  pitch <- randomBend (2 <? i)%Z TRACK.PITCH_MAX ;;
  let newSegment := nextSegment (lastSegment a) curvature pitch i in
  let tr := initialTrack a ++ [newSegment] in
  withHazard <- chance (2 <? i)%Z (lit 7 10) ;;
  hz <-- (if withHazard then
            hazardPos <- scatter newSegment (lit 4 10) ;;
            throw HAZARD_TYPES_is_not_defined
          else ret (Normal (initialHazards a))) ;;
  withPowerUp <- chance (1 <? i)%Z (lit 3 10) ;;
  pu <-- (if withPowerUp then
            powerUpPos <- scatter newSegment (lit 3 10) ;;
            let powerUpPos := raise powerUpPos in
            throw POWERUP_TYPES_is_not_defined
          else ret (Normal (initialPowerUps a))) ;;
  ret (Normal (mkInit tr hz pu newSegment)).

Fixpoint initLoop (indices : list Z) (a : InitAcc) : Rand (Completion InitAcc) :=
  match indices with
  | [] => ret (Normal a)
  | i :: rest => a' <-- initStep i a ;; initLoop rest a'
  end.

Definition initializeTrack (state : GameState) : Rand (Completion GameState) :=
  a <-- initLoop [1; 2; 3; 4; 5]%Z (mkInit [startSegment] [] [] startSegment) ;;
  ret (Normal (with_track (initialTrack a) (initialHazards a) (initialPowerUps a)
                          state)).

(** *** generateNewTrackSegment

    As in [initializeTrack], drawing a hazard or a power-up ends in a
    [ReferenceError], before anything is pushed. *)

Definition generateNewTrackSegment (state : GameState) : Rand (Completion GameState) :=
  match lastOf (track state) with
  | None => ret (Normal state)
  | Some lastSegment =>
      c <- random ;;
      let curvature := (c - lit 5 10) * TRACK.CURVATURE_MAX in
      p <- random ;;
      let pitch := (p - lit 5 10) * TRACK.PITCH_MAX in
      let newSegmentId := (s_id lastSegment + 1)%Z in
      let newSegment := nextSegment lastSegment curvature pitch newSegmentId in
      withHazard <- chance true (lit 7 10) ;;
      newHazards <--
        (if withHazard then
           hazardPos <- scatter newSegment (lit 4 10) ;;
           throw HAZARD_TYPES_is_not_defined
         else ret (Normal (hazards state))) ;;
      withPowerUp <- chance true (lit 3 10) ;;
      newPowerUps <--
        (if withPowerUp then
           powerUpPos <- scatter newSegment (lit 3 10) ;;
           let powerUpPos := raise powerUpPos in
           throw POWERUP_TYPES_is_not_defined
         else ret (Normal (powerUps state))) ;;
      ret (Normal (with_track (track state ++ [newSegment]) newHazards newPowerUps
                              state))
  end.

(** *** removeOldTrackSegment *)

Definition removeOldTrackSegment (state : GameState) : GameState :=
  match track state with
  | [] | [_] => state
  | first :: newTrack =>
      let oldSegmentId := s_id first in
      let newHazards :=
        filter (fun h => negb (h_id h / 100 =? oldSegmentId)%Z) (hazards state) in
      let newPowerUps :=
        filter (fun p => negb (p_id p / 100 =? oldSegmentId)%Z) (powerUps state) in
      with_track newTrack newHazards newPowerUps state
  end.

End Actions.

Section RaceActions.
Context {N : Number} {Rot : Rotations}.

(** *** startGame

    [state.initializeTrack()] is called inside the updater: when it
    throws, so does the updater, and the store keeps its state. *)

Definition startGame (state : GameState) : Rand (Completion GameState) :=
  if GamePhase_eqb (phase state) READY then
    live <-- initializeTrack state ;;
    ret (Normal {| phase := PLAYING;
                   time := nofZ 0;
                   score := 0;
                   lap := 1;
                   lapTimes := [];
                   bestLapTime := bestLapTime live;
                   lastCheckpointId := lastCheckpointId live;
                   rocket := rocket0;
                   track := track live;
                   hazards := hazards live;
                   powerUps := powerUps live;
                   cameraTarget := cameraTarget live |})
  else ret (Normal state).

(** *** restartGame

    The update lists [phase], [time], [score], [lap], [lapTimes] and
    [rocket]; every other field keeps the value it has after the nested
    [initializeTrack]. *)
Definition restartGame (state : GameState) : Rand (Completion GameState) :=
  live <-- initializeTrack state ;;
  ret (Normal {| phase := READY;
                 time := nofZ 0;
                 score := 0;
                 lap := 1;
                 lapTimes := [];
                 bestLapTime := bestLapTime live;
                 lastCheckpointId := lastCheckpointId live;
                 rocket := rocket0;
                 track := track live;
                 hazards := hazards live;
                 powerUps := powerUps live;
                 cameraTarget := cameraTarget live |}).

(** *** endGame *)

Definition endGame (won : bool) (state : GameState) : GameState :=
  let newPhase := if won then FINISHED else GAME_OVER in
  with_phase newPhase state.

(** *** activatePowerUp *)

Definition activatePowerUp (type : PowerUpType) (state : GameState) : GameState :=
  let rocket := rocket state in
  let rocket :=
    match type with
    | BOOST => r_with_boost true (boostCooldown rocket) ROCKET.BOOST_DURATION rocket
    | SHIELD => r_with_shield true (nofZ 5000) rocket
    | POWERUP_OTHER => rocket
    end in
  with_rocket rocket state.

(** *** updateTime *)

Definition updateTime (deltaTime : num) (state : GameState) : GameState :=
  with_time (time state + deltaTime) state.

(** *** checkpointPassed *)

Definition checkpointPassed (checkpointId : Z) (state : GameState) : GameState :=
  if (checkpointId <=? lastCheckpointId state)%Z then state
  else
    let newScore := (score state + 100)%Z in
    if (Z.rem checkpointId (TRACK.CHECKPOINT_INTERVAL * 4) =? 0)%Z
       && (0 <? checkpointId)%Z
    then
      let newLap := (lap state + 1)%Z in
      let lapTime := time state in
      let newLapTimes := lapTimes state ++ [lapTime] in
      let newBestLapTime :=
        match bestLapTime state with
        | None => Some lapTime
        | Some best => if lapTime <? best then Some lapTime else Some best
        end in
      {| phase := phase state;
         time := nofZ 0;
         score := newScore + 500;
         lap := newLap;
         lapTimes := newLapTimes;
         bestLapTime := newBestLapTime;
         lastCheckpointId := checkpointId;
         rocket := rocket state;
         track := track state;
         hazards := hazards state;
         powerUps := powerUps state;
         cameraTarget := cameraTarget state |}
    else
      {| phase := phase state;
         time := time state;
         score := newScore;
         lap := lap state;
         lapTimes := lapTimes state;
         bestLapTime := bestLapTime state;
         lastCheckpointId := checkpointId;
         rocket := rocket state;
         track := track state;
         hazards := hazards state;
         powerUps := powerUps state;
         cameraTarget := cameraTarget state |}.

(** *** updateGameState

    Not an updater but a sequence of calls: when
    [generateNewTrackSegment] throws, nothing has been written yet. *)

Definition updateGameState (deltaTime : num) (state : GameState)
    : Rand (Completion GameState) :=
  if negb (GamePhase_eqb (phase state) PLAYING) then ret (Normal state)
  else
    let currentPosition := position (rocket state) in
    s1 <-- match lastOf (track state) with
           | Some lastSegment =>
               let distanceToEnd := distanceTo currentPosition (s_end lastSegment) in
               if distanceToEnd <? TRACK.SEGMENT_LENGTH * nofZ 2
               then generateNewTrackSegment state
               else ret (Normal state)
           | None => ret (Normal state)
           end ;;
    let s2 := match track s1 with
              | firstSegment :: _ =>
                  let distanceToStart := distanceTo currentPosition (s_start firstSegment) in
                  if distanceToStart >? TRACK.SEGMENT_LENGTH * nofZ 3
                  then removeOldTrackSegment s1
                  else s1
              | [] => s1
              end in
    ret (Normal (updateTime deltaTime s2)).

(** *** updateRocket *)

(** "Handle boosting" and "Handle shield": the two countdowns, and the
    timeout set when the boost runs out. *)
Definition countdown (deltaTime : num) (rocket : RocketState)
    : RocketState * list Timeout :=
  let (rocket, ts) :=
    if isBoosting rocket then
      let remaining := boostTimeRemaining rocket - deltaTime in
      if remaining <=? nofZ 0
      then (r_with_boost false true remaining rocket,
            [setTimeout ClearBoostCooldown ROCKET.BOOST_COOLDOWN])
      else (r_with_boost true (boostCooldown rocket) remaining rocket, [])
    else (rocket, []) in
  let rocket :=
    if isShielded rocket then
      let remaining := shieldTimeRemaining rocket - deltaTime in
      if remaining <=? nofZ 0
      then r_with_shield false remaining rocket
      else r_with_shield true remaining rocket
    else rocket in
  (rocket, ts).


Definition rocketSize : Vector3 := vec3 (nofZ 2) (nofZ 2) (nofZ 4).

(** [updateRocket(deltaTime, controls, collisionObjects)]: how the
    updater ends, and the timeouts it has set by then.  The countdowns
    run on the local copy [{...state.rocket}]; then
    [controls[Controls.forward]] throws, whatever the controls are, and
    the copy is lost: the acceleration, the speed limit, the movement and
    the collision loop that follow in the source are never reached. *)
Definition updateRocket (deltaTime : num) (controls : Controls)
    (collisionObjects : list Object3D) (state : GameState)
    : Completion GameState * list Timeout :=
  let (rocket, ts) := countdown deltaTime (rocket state) in
  (Throw Controls_is_not_defined, ts).

End RaceActions.

(* ================================================================== *)
(** ** collisionDetection.ts *)

Section Collision.
Context {N : Number} {Rot : Rotations}.

Definition checkHazardCollision (rocketPosition rocketSize : Vector3)
    (hazard : Hazard) : bool :=
  let rocketBox := setFromCenterAndSize rocketPosition rocketSize in
  let hazardSize := vec3 (h_size hazard) (h_size hazard) (h_size hazard) in
  let hazardBox := setFromCenterAndSize (h_position hazard) hazardSize in
  intersectsBox rocketBox hazardBox.

Definition checkPowerUpCollision (rocketPosition rocketSize : Vector3)
    (powerUp : PowerUp) : bool :=
  if negb (p_active powerUp) then false
  else
    let rocketBox := setFromCenterAndSize rocketPosition rocketSize in
    let powerUpSize := vec3 (p_size powerUp) (p_size powerUp) (p_size powerUp) in
    let powerUpBox := setFromCenterAndSize (p_position powerUp) powerUpSize in
    intersectsBox rocketBox powerUpBox.

(** The closest segment so far and its distance; [None] is the initial
    [closestSegment = null], [minDistance = Infinity]. *)
Definition closer (rocketPosition : Vector3)
    (best : option (TrackSegment * num)) (segment : TrackSegment)
    : option (TrackSegment * num) :=
  let closestPoint := closestPointToPoint (s_start segment) (s_end segment) rocketPosition in
  let distance := distanceTo rocketPosition closestPoint in
  match best with
  | None => if nltInfinity distance then Some (segment, distance) else None
  | Some (_, minDistance) =>
      if distance <? minDistance then Some (segment, distance) else best
  end.

Definition checkTrackBoundaryCollision (rocketPosition rocketSize : Vector3)
    (trackSegments : list TrackSegment) : bool :=
  match fold_left (closer rocketPosition) trackSegments None with
  | None => false
  | Some (closestSegment, minDistance) =>
      let rocketHalfWidth := nmax (vx rocketSize) (vz rocketSize) / nofZ 2 in
      minDistance >? (s_width closestSegment / nofZ 2 - rocketHalfWidth - lit 2 10)
  end.

Definition checkCheckpointCollision (rocketPosition rocketPrevPosition : Vector3)
    (segment : TrackSegment) : bool :=
  if negb (s_isCheckpoint segment) then false
  else
    let planeNormal := s_direction segment in
    let plane := setFromNormalAndCoplanarPoint planeNormal (s_end segment) in
    let prevSide := distanceToPoint plane rocketPrevPosition >? nofZ 0 in
    let currentSide := distanceToPoint plane rocketPosition >? nofZ 0 in
    if xorb prevSide currentSide then
      let offset := projectOnPlane (vsub rocketPosition (s_end segment)) planeNormal in
      let distanceFromCenter := vlength offset in
      distanceFromCenter <? s_width segment / nofZ 2
    else false.

Record Checkpoint : Type := mkCheckpoint { collided : bool; id : Z }.

Record CollisionResult : Type := mkResult {
  trackBoundary : bool;
  r_hazards : list Hazard;
  r_powerUps : list PowerUp;
  checkpoint : Checkpoint
}.

(** The body of [trackSegments.forEach(segment => ...)]: a segment that
    meets the crossing condition overwrites [result.checkpoint]. *)
Definition crossing (rocketPosition rocketPrevPosition : Vector3)
    (result : Checkpoint) (segment : TrackSegment) : Checkpoint :=
  if s_isCheckpoint segment
     && checkCheckpointCollision rocketPosition rocketPrevPosition segment
  then mkCheckpoint true (s_id segment)
  else result.

Definition detectCollisions (rocketPosition rocketPrevPosition rocketSize : Vector3)
    (trackSegments : list TrackSegment) (hazards : list Hazard)
    (powerUps : list PowerUp) : CollisionResult :=
  {| trackBoundary :=
       checkTrackBoundaryCollision rocketPosition rocketSize trackSegments;
     r_hazards :=
       filter (fun hazard =>
                 h_active hazard
                 && checkHazardCollision rocketPosition rocketSize hazard) hazards;
     r_powerUps :=
       filter (fun powerUp =>
                 p_active powerUp
                 && checkPowerUpCollision rocketPosition rocketSize powerUp) powerUps;
     checkpoint :=
       fold_left (crossing rocketPosition rocketPrevPosition) trackSegments
                 (mkCheckpoint false (-1)) |}.

End Collision.

(* ================================================================== *)
(** ** components/game/Camera.tsx: the frame callback of [Game], and the event loop *)

Section Loop.
Context {N : Number} {Rot : Rotations}.

(** The store together with what the browser holds for it: the generator
    behind [Math.random], the wall clock in milliseconds, and the pending
    [setTimeout] calls with the time at which each is due. *)
Record World : Type := mkWorld {
  store : GameState;
  rng : RNG;
  clock : num;
  timers : list (num * Task)
}.

Definition world0 (g : RNG) (now : num) : World := mkWorld initialState g now [].

(** Running a deferred call. *)
Definition runTask (t : Task) (state : GameState) : GameState :=
  match t with
  | ClearBoostCooldown =>
      let r := rocket state in
      with_rocket (r_with_boost (isBoosting r) false (boostTimeRemaining r) r) state
  | EndGame won => endGame won state
  end.

(** The timers due at [now] run (the two kinds of task write different
    fields, so their relative order does not matter); the others stay. *)
Fixpoint fireDue (now : num) (pending : list (num * Task)) (state : GameState)
    : GameState * list (num * Task) :=
  match pending with
  | [] => (state, [])
  | (due, t) :: rest =>
      if due <=? now
      then fireDue now rest (runTask t state)
      else let (state', rest') := fireDue now rest state in
           (state', (due, t) :: rest')
  end.

Definition schedule (now : num) (ts : list Timeout) : list (num * Task) :=
  map (fun t => (now + delay t, task t)) ts.

(** The body of [useFrame((_, deltaTime) => ...)]: the store when the
    callback ends, the error it ends with if it throws, and the timeouts
    set.  The component's [phase] is the store's.  In phase Playing the
    callback ends where [updateRocket] throws; the calls that follow in
    the source ([updateGameState], [detectCollisions] on the component's
    [rocket.position], [track], [hazards] and [powerUps], then
    [activatePowerUp] and [checkpointPassed]) are written out as the
    source has them. *)
Definition gameFrame (deltaTime : num) (controls : Controls)
    (collisionObjects : list Object3D) (state : GameState)
    : Rand (GameState * option ReferenceError * list Timeout) :=
  let clampedDelta := nmin deltaTime (lit 1 10) * nofZ 1000 in
  if GamePhase_eqb (phase state) PLAYING then
    let prevPosition := position (rocket state) in
    match updateRocket clampedDelta controls collisionObjects state with
    | (Throw e, ts) => ret (state, Some e, ts)
    | (Normal s1, ts) =>
        c <- updateGameState clampedDelta s1 ;;
        match c with
        | Throw e => ret (s1, Some e, ts)
        | Normal s2 =>
            let collisionResult :=
              detectCollisions (position (rocket s1)) prevPosition rocketSize
                               (track s1) (hazards s1) (powerUps s1) in
            let s3 := fold_left (fun s powerUp => activatePowerUp (p_type powerUp) s)
                                (r_powerUps collisionResult) s2 in
            let s4 := if collided (checkpoint collisionResult)
                      then checkpointPassed (id (checkpoint collisionResult)) s3
                      else s3 in
            ret (s4, None, ts)
        end
    end
  else ret (state, None, []).

(** What can happen to the store: [ms] milliseconds pass, and the timers
    that have become due run; a rendering frame calls the frame callback;
    or one of the store's actions is called. *)
Inductive Event : Type :=
| Elapse (ms : num)
| Frame (deltaTime : num) (controls : Controls) (collisionObjects : list Object3D)
| StartGame
| RestartGame
| CallEndGame (won : bool)
| UpdateRocket (deltaTime : num) (controls : Controls) (collisionObjects : list Object3D)
| ActivatePowerUp (type : PowerUpType)
| UpdateGameState (deltaTime : num)
| GenerateNewTrackSegment
| RemoveOldTrackSegment
| CheckpointPassed (checkpointId : Z)
| UpdateTime (deltaTime : num)
| InitializeTrack.

Definition step (e : Event) (w : World) : World :=
  match e with
  | Elapse ms =>
      let now := clock w + ms in
      let (s, pending) := fireDue now (timers w) (store w) in
      mkWorld s (rng w) now pending
  | Frame deltaTime controls objs =>
      let '(s, _, ts, g) := gameFrame deltaTime controls objs (store w) (rng w) in
      mkWorld s g (clock w) (timers w ++ schedule (clock w) ts)
  | StartGame =>
      let (c, g) := startGame (store w) (rng w) in
      mkWorld (commit c (store w)) g (clock w) (timers w)
  | RestartGame =>
      let (c, g) := restartGame (store w) (rng w) in
      mkWorld (commit c (store w)) g (clock w) (timers w)
  | CallEndGame won => mkWorld (endGame won (store w)) (rng w) (clock w) (timers w)
  | UpdateRocket deltaTime controls objs =>
      let (c, ts) := updateRocket deltaTime controls objs (store w) in
      mkWorld (commit c (store w)) (rng w) (clock w)
              (timers w ++ schedule (clock w) ts)
  | ActivatePowerUp type =>
      mkWorld (activatePowerUp type (store w)) (rng w) (clock w) (timers w)
  | UpdateGameState deltaTime =>
      let (c, g) := updateGameState deltaTime (store w) (rng w) in
      mkWorld (commit c (store w)) g (clock w) (timers w)
  | GenerateNewTrackSegment =>
      let (c, g) := generateNewTrackSegment (store w) (rng w) in
      mkWorld (commit c (store w)) g (clock w) (timers w)
  | RemoveOldTrackSegment =>
      mkWorld (removeOldTrackSegment (store w)) (rng w) (clock w) (timers w)
  | CheckpointPassed checkpointId =>
      mkWorld (checkpointPassed checkpointId (store w)) (rng w) (clock w) (timers w)
  | UpdateTime deltaTime =>
      mkWorld (updateTime deltaTime (store w)) (rng w) (clock w) (timers w)
  | InitializeTrack =>
      let (c, g) := initializeTrack (store w) (rng w) in
      mkWorld (commit c (store w)) g (clock w) (timers w)
  end.

Definition run (events : list Event) (w : World) : World :=
  fold_left (fun w e => step e w) events w.

End Loop.

(** Rotations by a zero angle: every quaternion is the identity and leaves
    a vector as it is.  This is what three.js computes when every bend
    drawn for the track is zero, as in the concrete runs below. *)
Definition Straight {N : Number} : Rotations :=
  {| Quaternion := unit;
     Euler := unit;
     euler0 := tt;
     quaternion1 := tt;
     setFromAxisAngle := fun _ _ => tt;
     qmultiply := fun _ _ => tt;
     setFromEuler := fun _ => tt;
     setFromQuaternion := fun _ => tt;
     applyQuaternion := fun v _ => v;
     applyEuler := fun v _ => v |}.

(* ================================================================== *)
(** ** What is proved: the notions the statements use *)

Section Notions.
Context {N : Number} {Rot : Rotations}.

(** A sequence of checkpoint-crossing events, processed in order. *)
Definition passAll (ids : list Z) (state : GameState) : GameState :=
  fold_left (fun s checkpointId => checkpointPassed checkpointId s) ids state.

(** A connected polyline with consecutive ids: every segment starts where
    the one before it ends and carries the next id. *)
Fixpoint connected (l : list TrackSegment) : Prop :=
  match l with
  | a :: (b :: _) as rest =>
      s_end a = s_start b /\ s_id b = (s_id a + 1)%Z /\ connected rest
  | _ => True
  end.

(** A segment is a checkpoint exactly when its id is a multiple of the
    checkpoint interval, and ids are not negative. *)
Definition regular (seg : TrackSegment) : Prop :=
  (0 <= s_id seg)%Z /\
  s_isCheckpoint seg = (Z.rem (s_id seg) TRACK.CHECKPOINT_INTERVAL =? 0)%Z.

(** The crossing condition of [detectCollisions] for one segment. *)
Definition crosses (rocketPosition rocketPrevPosition : Vector3)
    (segment : TrackSegment) : bool :=
  s_isCheckpoint segment
  && checkCheckpointCollision rocketPosition rocketPrevPosition segment.


(** The tick duration the frame callback derives from [deltaTime]. *)
Definition clampedDelta (deltaTime : num) : num :=
  nmin deltaTime (lit 1 10) * nofZ 1000.

(** A tick: a rendering frame, or a call of [updateRocket]. *)
Definition isTick (e : Event) : bool :=
  match e with Frame _ _ _ | UpdateRocket _ _ _ => true | _ => false end.

(** What holds of every track window. *)
Definition goodTrack (l : list TrackSegment) : Prop :=
  connected l /\ Forall regular l.

(** The indices [i], [i + 1], ... of a counting loop. *)
Fixpoint upFrom (i : Z) (n : nat) : list Z :=
  match n with
  | O => []
  | S n => i :: upFrom (i + 1) n
  end.

(** What holds of every state the store can be in. *)
Definition wellFormed (s : GameState) : Prop :=
  (0 <= lastCheckpointId s)%Z /\ connected (track s) /\ Forall regular (track s).


(** A rocket where [startGame] puts it: at rest at the start, undamaged,
    with no boost cooldown.  (Its boost and shield are as a power-up may
    have set them.) *)
Definition parked (r : RocketState) : Prop :=
  position r = position rocket0 /\ rotation r = rotation rocket0 /\
  velocity r = velocity rocket0 /\ speed r = speed rocket0 /\
  health r = health rocket0 /\ boostCooldown r = false.

(** A state without hazards and power-ups. *)
Definition bare (s : GameState) : Prop := hazards s = [] /\ powerUps s = [].

(** What a completed [initializeTrack] leaves of [state]. *)
Definition freshTrack (state s : GameState) : Prop :=
  exists rest,
    s = with_track (startSegment :: rest) [] [] state /\
    goodTrack (startSegment :: rest) /\
    map s_id (startSegment :: rest) = [0; 1; 2; 3; 4; 5]%Z /\
    Forall (fun seg => (s_id seg <= 2)%Z ->
                       s_curvature seg = nofZ 0 /\ s_pitch seg = nofZ 0)
           (startSegment :: rest).

(** The two errors of the track code. *)
Definition objectError (e : ReferenceError) : Prop :=
  e = HAZARD_TYPES_is_not_defined \/ e = POWERUP_TYPES_is_not_defined.

(** The fields that [startGame] and [restartGame] write, over the state
    [live] that the nested [initializeTrack] has left. *)
Definition resetRace (p : GamePhase) (live : GameState) : GameState :=
  {| phase := p;
     time := nofZ 0;
     score := 0;
     lap := 1;
     lapTimes := [];
     bestLapTime := bestLapTime live;
     lastCheckpointId := lastCheckpointId live;
     rocket := rocket0;
     track := track live;
     hazards := hazards live;
     powerUps := powerUps live;
     cameraTarget := cameraTarget live |}.

(** The updates of the store: an event changes the store by a sequence of
    these, or not at all. *)
Inductive update : GameState -> GameState -> Prop :=
| update_none (s : GameState) : update s s
| update_then (s s' s'' : GameState) : update s s' -> update s' s'' -> update s s''
| update_task (t : Task) (s : GameState) : update s (runTask t s)
| update_init (s live : GameState) : freshTrack s live -> update s live
| update_start (p : GamePhase) (s live : GameState) :
    freshTrack s live -> update s (resetRace p live)
| update_end (won : bool) (s : GameState) : update s (endGame won s)
| update_powerUp (type : PowerUpType) (s : GameState) :
    update s (activatePowerUp type s)
| update_checkpoint (checkpointId : Z) (s : GameState) :
    update s (checkpointPassed checkpointId s)
| update_time (deltaTime : num) (s : GameState) : update s (updateTime deltaTime s)
| update_remove (s : GameState) : update s (removeOldTrackSegment s)
| update_generate (s : GameState) (ls : TrackSegment) (c p : num) :
    lastOf (track s) = Some ls ->
    update s (with_track (track s ++ [nextSegment ls c p (s_id ls + 1)])
                         (hazards s) (powerUps s) s).

(** Draws none of which lets a hazard (below 0.7) or a power-up (below
    0.3) be added. *)
Definition quietDraws (g : RNG) : Prop :=
  forall n, (g n <? lit 7 10) = false /\ (g n <? lit 3 10) = false.

End Notions.


(** *** Concrete runs, on binary64 numbers and a straight track *)

Module Run.
Local Open Scope float_scope.
#[local] Set Warnings "-inexact-float".

Definition State : Type := @GameState Float64 Straight.

(** The draws of [Math.random()] still to come: those listed, then 0.9. *)
Definition stream (draws : list float) : @RNG Float64 := fun n => nth n draws 0.9.

(** The 13 draws of an [initializeTrack] that bends nothing (0.5 for the
    curvature and the pitch of the segments 3, 4 and 5) and adds no
    object (0.9 where a hazard or a power-up is decided). *)
Definition quiet : list float :=
  [0.9; 0.5; 0.5; 0.9; 0.9; 0.5; 0.5; 0.9; 0.9; 0.5; 0.5; 0.9; 0.9].

(** The 4 draws of a [generateNewTrackSegment] that bends nothing and
    adds no object. *)
Definition straightOn : list float := [0.5; 0.5; 0.9; 0.9].


(** Every draw is 0.5: a hazard is to be added as soon as one can be. *)
Definition halves : @RNG Float64 := fun _ => 0.5.

Definition noKeys : Controls :=
  mkControls false false false false false false false false.
Definition forwardKey : Controls :=
  mkControls true false false false false false false false.

(** The initial world, with the draws for a start and two more segments;
    with the draws for a start and a restart; with the draws for a start
    and a segment with a hazard; with the draws for a start and a restart
    that is to add a hazard to segment 3; and with every draw 0.5. *)
Definition draws : @RNG Float64 := stream (quiet ++ straightOn ++ straightOn).
Definition begin : @World Float64 Straight := world0 draws 0.
Definition twice : @World Float64 Straight := world0 (stream (quiet ++ quiet)) 0.
Definition toAbort : @World Float64 Straight :=
  world0 (stream (quiet ++ [0.5; 0.5; 0.5; 0.5])) 0.
Definition unlucky : @World Float64 Straight := world0 halves 0.

(** A hazard mesh whose bounding box lies around the rocket's start. *)
Definition rock : @Object3D Float64 :=
  mkObject true UHazard (box3 (@vec3 Float64 (-1) 1 (-1)) (@vec3 Float64 1 3 1)).

(** A lap of 41 seconds, then the restart key. *)
Definition lapThenRestart : list (@Event Float64) :=
  [StartGame; UpdateTime (41000 : @num Float64); CheckpointPassed 3;
   CheckpointPassed 6; CheckpointPassed 9; CheckpointPassed 12; RestartGame].

(** A frame of 16 ms. *)
Definition tick : @num Float64 := 0.016.

(** The rocket rests inside a hazard for [n] frames, 16 ms apart. *)
Definition inTheRock (n : nat) : list (@Event Float64) :=
  StartGame ::
  concat (repeat [Elapse (16 : @num Float64); Frame tick noKeys [rock]] n).

(** A lap of 41 seconds. *)
Definition lap41 : list (@Event Float64) :=
  [StartGame; UpdateTime (41000 : @num Float64); CheckpointPassed 3;
   CheckpointPassed 6; CheckpointPassed 9; CheckpointPassed 12].


(** The window after segments 6 and 7 were generated and 0 to 5 evicted. *)
Definition window67 : list (@Event Float64) :=
  [StartGame; GenerateNewTrackSegment; GenerateNewTrackSegment;
   RemoveOldTrackSegment; RemoveOldTrackSegment; RemoveOldTrackSegment;
   RemoveOldTrackSegment; RemoveOldTrackSegment; RemoveOldTrackSegment].

(** Its segments, by position. *)
Definition segment (n : nat) : @TrackSegment Float64 :=
  nth n (track (store (run window67 begin))) startSegment.

(** Two positions of the rocket, 450 units apart along the track. *)
Definition near : @Vector3 Float64 := @vec3 Float64 0 2 0.
Definition far : @Vector3 Float64 := @vec3 Float64 0 2 (-450).

End Run.

(* ================================================================== *)
(** ** trackGenerator.ts *)

Section TrackGenerator.
Context {N : Number} {Rot : Rotations}.

(** The variables of the loop of [generateTrackSegments]. *)
Record GenAcc : Type := mkGen {
  segments : list TrackSegment;
  currentPoint : Vector3;
  currentDirection : Vector3
}.

(** One iteration of [for (let i = 0; i < numSegments; i++)]. *)
Definition genStep (i : Z) (a : GenAcc) : Rand GenAcc :=
  curvature <- randomBend (negb (i <? 2)%Z) TRACK.CURVATURE_MAX ;;
  pitch <- randomBend (negb (i <? 2)%Z) TRACK.PITCH_MAX ;;
  let direction := bend (currentDirection a) curvature pitch in
  let nextPoint := vadd (currentPoint a)
                        (multiplyScalar direction TRACK.SEGMENT_LENGTH) in
  ret (mkGen (segments a ++
              [ {| s_start := currentPoint a;
                   s_end := nextPoint;
                   s_direction := direction;
                   s_width := TRACK.WIDTH;
                   s_curvature := curvature;
                   s_pitch := pitch;
                   s_isCheckpoint := (Z.rem i TRACK.CHECKPOINT_INTERVAL =? 0)%Z;
                   s_id := i |} ])
             nextPoint direction).

Fixpoint genLoop (indices : list Z) (a : GenAcc) : Rand GenAcc :=
  match indices with
  | [] => ret a
  | i :: rest => a' <- genStep i a ;; genLoop rest a'
  end.

Definition generateTrackSegments (startPoint initialDirection : Vector3)
    (numSegments : Z) : Rand (list TrackSegment) :=
  a <- genLoop (upFrom 0 (Z.to_nat numSegments))
               (mkGen [] startPoint initialDirection) ;;
  ret (segments a).

(** A position [along] the segment (a draw scaled to [lo .. lo + span]),
    moved off the centre line by up to [spread] times the segment's width. *)
Definition place (segment : TrackSegment) (span lo spread : num) : Rand Vector3 :=
  r <- random ;;
  let t := r * span + lo in
  let position := lerpVectors (s_start segment) (s_end segment) t in
  ox <- random ;;
  oz <- random ;;
  let offsetDir := normalize (vec3 (ox - lit 5 10) (nofZ 0) (oz - lit 5 10)) in
  d <- random ;;
  let offsetDistance := d * (s_width segment * spread) in
  ret (vadd position (multiplyScalar offsetDir offsetDistance)).

Definition lift (p : Vector3) (dy : num) : Vector3 :=
  vec3 (vx p) (vy p + dy) (vz p).

(** The body of the loop of [generateHazardsForSegment]. *)
Definition hazardFor (segment : TrackSegment) (i : Z) : Rand Hazard :=
  position <- place segment (lit 8 10) (lit 1 10) (lit 4 10) ;;
  y <- random ;;
  let position := lift position (y * nofZ 2 - nofZ 1) in
  k <- random ;;
  let hazardType := hazardTypes (nfloor (k * nofZ 3)) in
  sz <- random ;;
  ret {| h_type := hazardType;
         h_position := position;
         h_size := nofZ 3 + sz * nofZ 2;
         h_id := s_id segment * 100 + i;
         h_active := true |}.

Fixpoint hazardLoop (segment : TrackSegment) (indices : list Z)
    (hazards : list Hazard) : Rand (list Hazard) :=
  match indices with
  | [] => ret hazards
  | i :: rest =>
      h <- hazardFor segment i ;; hazardLoop segment rest (hazards ++ [h])
  end.

Definition generateHazardsForSegment (segment : TrackSegment) (density : num)
    : Rand (list Hazard) :=
  if (s_id segment <? 2)%Z then ret []
  else
    r <- random ;;
    if r >? density then ret []
    else
      k <- random ;;
      let numHazards := (nfloor (k * nofZ 3)%num + 1)%Z in
      hazardLoop segment (upFrom 0 (Z.to_nat numHazards)) [].

(** The body of the loop of [generatePowerUpsForSegment]. *)
Definition powerUpFor (segment : TrackSegment) (i : Z) : Rand PowerUp :=
  position <- place segment (lit 7 10) (lit 15 100) (lit 3 10) ;;
  y <- random ;;
  let position := lift position (nofZ 3 + y) in
  k <- random ;;
  let powerUpType := powerUpTypes (nfloor (k * nofZ 2)) in
  ret {| p_type := powerUpType;
         p_position := position;
         p_size := nofZ 2;
         p_id := s_id segment * 100 + i + 50;
         p_active := true |}.

Fixpoint powerUpLoop (segment : TrackSegment) (indices : list Z)
    (powerUps : list PowerUp) : Rand (list PowerUp) :=
  match indices with
  | [] => ret powerUps
  | i :: rest =>
      p <- powerUpFor segment i ;; powerUpLoop segment rest (powerUps ++ [p])
  end.

Definition generatePowerUpsForSegment (segment : TrackSegment) (density : num)
    : Rand (list PowerUp) :=
  if (s_id segment <? 1)%Z then ret []
  else
    r <- random ;;
    if r >? density then ret []
    else
      k <- random ;;
      let numPowerUps := (nfloor (k * nofZ 2)%num + 1)%Z in
      powerUpLoop segment (upFrom 0 (Z.to_nat numPowerUps)) [].

(** The result of [getPointOnTrack]. *)
Record TrackPoint : Type := mkTrackPoint {
  tp_position : Vector3;
  tp_direction : Vector3;
  tp_segmentIndex : Z
}.

(** [while (currentSegmentIndex < segments.length)], from the segment at
    [currentSegmentIndex] on; [None] when the loop runs off the track. *)
Fixpoint findSegment (rest : list TrackSegment) (remainingDistance : num)
    (currentSegmentIndex : Z) : option TrackPoint :=
  match rest with
  | [] => None
  | segment :: rest' =>
      let segmentLength := distanceTo (s_start segment) (s_end segment) in
      if remainingDistance <=? segmentLength then
        let t := remainingDistance / segmentLength in
        Some (mkTrackPoint (lerpVectors (s_start segment) (s_end segment) t)
                           (s_direction segment) currentSegmentIndex)
      else findSegment rest' (remainingDistance - segmentLength)
                       (currentSegmentIndex + 1)
  end.

Definition getPointOnTrack (segments : list TrackSegment) (distance : num)
    : TrackPoint :=
  match lastOf segments with
  | None =>
      mkTrackPoint (vec3 (nofZ 0) (nofZ 0) (nofZ 0))
                   (vec3 (nofZ 0) (nofZ 0) (nopp (nofZ 1))) (-1)
  | Some lastSegment =>
      match findSegment segments distance 0 with
      | Some found => found
      | None =>
          mkTrackPoint (s_end lastSegment) (s_direction lastSegment)
                       (len segments - 1)
      end
  end.

(** The result of [getClosestPointOnTrack]; [None] is the distance
    [Infinity] it starts from. *)
Record Closest : Type := mkClosest {
  cl_point : Vector3;
  cl_distance : option num;
  cl_segmentIndex : Z
}.

(** The body of [segments.forEach((segment, index) => ...)]; the first
    component of the state is the running [index]. *)
Definition nearer (position : Vector3) (st : Z * Closest)
    (segment : TrackSegment) : Z * Closest :=
  let (index, best) := st in
  let point := closestPointToPoint (s_start segment) (s_end segment) position in
  let distance := distanceTo position point in
  let better :=
    match cl_distance best with
    | None => nltInfinity distance
    | Some closestDistance => distance <? closestDistance
    end in
  ((index + 1)%Z,
   if better then mkClosest point (Some distance) index else best).

Definition getClosestPointOnTrack (segments : list TrackSegment)
    (position : Vector3) : Closest :=
  snd (fold_left (nearer position) segments
         (0%Z, mkClosest (vec3 (nofZ 0) (nofZ 0) (nofZ 0)) None (-1))).

Definition isWithinTrackBounds (position : Vector3)
    (segments : list TrackSegment) (bufferPercentage : num) : bool :=
  let c := getClosestPointOnTrack segments position in
  if (cl_segmentIndex c <? 0)%Z then false
  else
    match nth_error segments (Z.to_nat (cl_segmentIndex c)), cl_distance c with
    | Some segment, Some distance =>
        let trackWidth := s_width segment * bufferPercentage / nofZ 2 in
        distance <=? trackWidth
    | _, _ => false
    end.

End TrackGenerator.

(* ================================================================== *)
(** ** physics.ts *)

Section Physics.
Context {N : Number}.

Definition GRAVITY : num := lit 5 100.

(** [applyPhysics]: the new position and velocity. *)
Definition applyPhysics (position velocity acceleration : Vector3)
    (deltaTime : num) : Vector3 * Vector3 :=
  let velocity := vadd velocity (multiplyScalar acceleration deltaTime) in
  let position := vadd position (multiplyScalar velocity deltaTime) in
  let velocity := vec3 (vx velocity) (vy velocity - GRAVITY * deltaTime)
                       (vz velocity) in
  let velocity := multiplyScalar velocity (nofZ 1 - lit 1 100 * deltaTime) in
  (position, velocity).

Definition calculateInterceptVelocity (source target : Vector3) (speed : num)
    : Vector3 :=
  let direction := normalize (vsub target source) in
  multiplyScalar direction speed.

(** [applyForce]: the new velocity. *)
Definition applyForce (velocity force : Vector3) (mass : num) : Vector3 :=
  let acceleration := divideScalar force mass in
  vadd velocity acceleration.

(** [Vector3.reflect(normal)] *)
Definition reflect (v normal : Vector3) : Vector3 :=
  vsub v (multiplyScalar normal (nofZ 2 * dot v normal)).

(** [bounce]: the new velocity. *)
Definition bounce (velocity normal : Vector3) (bounceFactor : num) : Vector3 :=
  multiplyScalar (reflect velocity normal) bounceFactor.

Definition negate (v : Vector3) : Vector3 :=
  vec3 (nopp (vx v)) (nopp (vy v)) (nopp (vz v)).

(** [applyGravityAnomaly]: the new velocity. *)
Definition applyGravityAnomaly (position velocity anomalyPosition : Vector3)
    (strength : num) (isPull : bool) (deltaTime : num) : Vector3 :=
  let forceDirection := vsub anomalyPosition position in
  let distance := vlength forceDirection in
  if distance >? nofZ 20 then velocity
  else
    let forceDirection := normalize forceDirection in
    let forceMagnitude :=
      strength / nmax (nofZ 1) (distance * distance) * deltaTime in
    let forceDirection := if negb isPull then negate forceDirection
                          else forceDirection in
    addScaledVector velocity forceDirection forceMagnitude.

End Physics.

(* ================================================================== *)
(** ** Further notions *)

Section MoreNotions.
Context {N : Number} {Rot : Rotations}.

(** The events that begin a new game. *)
Definition isReset (e : Event) : bool :=
  match e with StartGame | RestartGame => true | _ => false end.

(** The distance [checkTrackBoundaryCollision] and
    [getClosestPointOnTrack] measure to one segment. *)
Definition distanceToSegment (position : Vector3) (segment : TrackSegment) : num :=
  distanceTo position
    (closestPointToPoint (s_start segment) (s_end segment) position).

End MoreNotions.

(** Draws of [Math.random()] lie in [0, 1). *)
Definition unitDraws (g : @RNG Exact) : Prop :=
  forall n, (0 <= g n < 1)%R.

(* ================================================================== *)
(** ** components/game/Camera.tsx: the camera of [GameCamera] *)

Module CAMERA.
Section Camera.
Context {N : Number}.
Definition FOLLOW_DISTANCE : num := nofZ 15.
Definition HEIGHT_OFFSET : num := nofZ 5.
Definition SMOOTHING : num := lit 5 100.
End Camera.
End CAMERA.

Section CameraFollow.
Context {N : Number} {Rot : Rotations}.

(** [Vector3.lerp(v, alpha)] *)
Definition lerp (a v : Vector3) (alpha : num) : Vector3 :=
  vec3 (vx a + (vx v - vx a) * alpha)
       (vy a + (vy v - vy a) * alpha)
       (vz a + (vz v - vz a) * alpha).

(** "Calculate desired camera position behind the rocket" *)
Definition targetCameraPosition (rocket : RocketState) : Vector3 :=
  let direction :=
    applyEuler (vec3 (nofZ 0) (nofZ 0) (nopp (nofZ 1))) (rotation rocket) in
  vadd (vsub (position rocket) (multiplyScalar direction CAMERA.FOLLOW_DISTANCE))
       (vec3 (nofZ 0) CAMERA.HEIGHT_OFFSET (nofZ 0)).

(** The camera position after a frame of [GameCamera] in phase Playing
    (the other branch circles the track by the wall clock). *)
Definition followCamera (cameraPosition : Vector3) (rocket : RocketState) : Vector3 :=
  lerp cameraPosition (targetCameraPosition rocket) CAMERA.SMOOTHING.

(** The camera position after one frame for each rocket of a list. *)
Definition followAll (cameraPosition : Vector3) (rockets : list RocketState) : Vector3 :=
  fold_left followCamera rockets cameraPosition.

End CameraFollow.


Section StoreNotions.
Context {N : Number} {Rot : Rotations}.

(** The accumulators of the loop of [initializeTrack] before iteration
    [i]: the segments 0 to [i - 1], from the start segment on and straight
    up to id 2, and no hazard and no power-up. *)
Definition initShape (i : Z) (a : InitAcc) : Prop :=
  (exists rest, initialTrack a = startSegment :: rest) /\
  goodTrack (initialTrack a) /\
  lastOf (initialTrack a) = Some (lastSegment a) /\
  s_id (lastSegment a) = (i - 1)%Z /\
  map s_id (initialTrack a) = map Z.of_nat (seq 0 (Z.to_nat i)) /\
  Forall (fun seg => (s_id seg <= 2)%Z ->
                     s_curvature seg = nofZ 0 /\ s_pitch seg = nofZ 0)
         (initialTrack a) /\
  initialHazards a = [] /\ initialPowerUps a = [].


(** How many of the events of a sequence are accepted, from the
    last-accepted id [last] on: those above every id before them. *)
Fixpoint accepted (ids : list Z) (last : Z) : Z :=
  match ids with
  | [] => 0
  | checkpointId :: rest =>
      if (checkpointId <=? last)%Z then accepted rest last
      else (1 + accepted rest checkpointId)%Z
  end.

(** The lap counter counts the recorded lap times, and the score is a
    whole number of checkpoint bonuses. *)
Definition raceCounts (s : GameState) : Prop :=
  lap s = (1 + len (lapTimes s))%Z /\ (0 <= score s)%Z /\
  Z.rem (score s) 100 = 0%Z.

(** The variables of the loop of [generateTrackSegments] before
    iteration [i], for a track begun at [startPoint]. *)
Definition genShape (startPoint : Vector3) (i : Z) (a : GenAcc) : Prop :=
  goodTrack (segments a) /\
  map s_id (segments a) = map Z.of_nat (seq 0 (Z.to_nat i)) /\
  match lastOf (segments a) with
  | Some ls => s_end ls = currentPoint a
  | None => currentPoint a = startPoint
  end /\
  match segments a with
  | first :: _ => s_start first = startPoint
  | [] => True
  end.

End StoreNotions.

(** A boost or a shield that is on has time left (exact arithmetic). *)
Definition charged {Rot : @Rotations Exact} (r : @RocketState Exact Rot) : Prop :=
  (isBoosting r = true -> (0 < boostTimeRemaining r)%R) /\
  (isShielded r = true -> (0 < shieldTimeRemaining r)%R).

(** The best lap time is the least of the recorded lap times (exact
    arithmetic). *)
Definition bestIsLeast {Rot : @Rotations Exact} (s : @GameState Exact Rot) : Prop :=
  match bestLapTime s with
  | Some best => Forall (fun t => (best <= t)%R) (lapTimes s)
  | None => lapTimes s = []
  end.

(** The closest segment found so far among the segments [seen], for
    [checkTrackBoundaryCollision] (exact arithmetic). *)
Definition closestOf (pos : @Vector3 Exact) (seen : list (@TrackSegment Exact))
    (best : option (@TrackSegment Exact * @num Exact)) : Prop :=
  match best with
  | None => seen = []
  | Some (s, d) =>
      In s seen /\ d = distanceToSegment pos s /\
      Forall (fun s' => (d <= distanceToSegment pos s')%R) seen
  end.

(** The same for the running state of [getClosestPointOnTrack]. *)
Definition nearestOf (pos : @Vector3 Exact) (seen : list (@TrackSegment Exact))
    (st : Z * @Closest Exact) : Prop :=
  fst st = len seen /\
  match cl_distance (snd st) with
  | None => seen = [] /\ cl_segmentIndex (snd st) = (-1)%Z
  | Some d =>
      exists s,
        nth_error seen (Z.to_nat (cl_segmentIndex (snd st))) = Some s /\
        (0 <= cl_segmentIndex (snd st) < len seen)%Z /\
        d = distanceToSegment pos s /\
        cl_point (snd st) = closestPointToPoint (s_start s) (s_end s) pos /\
        Forall (fun s' => (d <= distanceToSegment pos s')%R) seen
  end.

(** A segment of length other than 0 (exact arithmetic). *)
Definition proper (s : @TrackSegment Exact) : Prop := s_start s <> s_end s.

(** *** Further concrete scenes *)

Module Scene.

(** Every draw of [Math.random()] is 1/2, in exact arithmetic. *)
Definition mid : @RNG Exact := fun _ => (1 / 2)%R.

(** A straight segment with the id 3, in exact arithmetic. *)
Definition third : @TrackSegment Exact :=
  {| s_start := @vec3 Exact 0%R 0%R (-300)%R;
     s_end := @vec3 Exact 0%R 0%R (-400)%R;
     s_direction := @vec3 Exact 0%R 0%R (-1)%R;
     s_width := 30%R;
     s_curvature := 0%R;
     s_pitch := 0%R;
     s_isCheckpoint := true;
     s_id := 3 |}.

(** A velocity, and the normal of a floor. *)
Definition falling : @Vector3 Exact := @vec3 Exact 1%R (-2)%R 0%R.
Definition floor : @Vector3 Exact := @vec3 Exact 0%R 1%R 0%R.

End Scene.


(* ================================================================== *)
(** ** The track code: what it builds, and when it throws *)

Section TrackCode.
Context {N : Number} {Rot : Rotations}.

Lemma lastOf_app (l : list TrackSegment) (b : TrackSegment) :
  lastOf (l ++ [b]) = Some b.
Proof.
  unfold lastOf. rewrite map_app. simpl. apply last_last.
Qed.

Lemma lastOf_cons (a b : TrackSegment) (l : list TrackSegment) :
  lastOf (a :: b :: l) = lastOf (b :: l).
Proof. reflexivity. Qed.

Lemma lastOf_In (l : list TrackSegment) (a : TrackSegment) :
  lastOf l = Some a -> In a l.
Proof.
  induction l as [|x l IH]; [discriminate|]. destruct l as [|y l].
  - simpl. intros E. injection E as ->. now left.
  - rewrite lastOf_cons. intros E. right. now apply IH.
Qed.

Lemma lastOf_None (l : list TrackSegment) : lastOf l = None -> l = [].
Proof.
  induction l as [|x l IH]; [reflexivity|]. destruct l as [|y l]; [discriminate|].
  rewrite lastOf_cons. intros E. specialize (IH E). discriminate.
Qed.

Lemma connected_snoc (l : list TrackSegment) (a b : TrackSegment) :
  connected l -> lastOf l = Some a ->
  s_end a = s_start b -> s_id b = (s_id a + 1)%Z ->
  connected (l ++ [b]).
Proof.
  intros C L E I. induction l as [|x l IH]; [discriminate|].
  destruct l as [|y l].
  - simpl in L. injection L as ->. simpl. auto.
  - rewrite lastOf_cons in L. destruct C as (C1 & C2 & C3).
    change (s_end x = s_start y /\ s_id y = (s_id x + 1)%Z /\
            connected ((y :: l) ++ [b])).
    auto.
Qed.

Lemma connected_tail (a : TrackSegment) (l : list TrackSegment) :
  connected (a :: l) -> connected l.
Proof. destruct l; simpl; tauto. Qed.

Lemma connected_nth (l : list TrackSegment) (i : nat) (a b : TrackSegment) :
  connected l -> nth_error l i = Some a -> nth_error l (S i) = Some b ->
  s_end a = s_start b /\ s_id b = (s_id a + 1)%Z.
Proof.
  revert i. induction l as [|x l IH]; intros i C A B; [destruct i; discriminate|].
  destruct i as [|i].
  - destruct l as [|y l]; [discriminate|].
    simpl in A, B. injection A as ->. injection B as ->.
    destruct C as (C1 & C2 & _). auto.
  - apply (IH i); [eapply connected_tail; eauto | exact A | exact B].
Qed.

Lemma nextSegment_regular (ls : TrackSegment) (c p : num) (i : Z) :
  (0 <= i)%Z -> regular (nextSegment ls c p i).
Proof. intros H. split; [exact H | reflexivity]. Qed.

Lemma goodTrack_next (l : list TrackSegment) (ls : TrackSegment) (c p : num) :
  goodTrack l -> lastOf l = Some ls ->
  goodTrack (l ++ [nextSegment ls c p (s_id ls + 1)]).
Proof.
  intros [C R] L. split.
  - apply (connected_snoc l ls); auto.
  - apply Forall_app. split; [exact R|].
    constructor; [|constructor].
    apply nextSegment_regular.
    rewrite Forall_forall in R. destruct (R _ (lastOf_In _ _ L)). lia.
Qed.

Lemma goodTrack_tail (a : TrackSegment) (l : list TrackSegment) :
  goodTrack (a :: l) -> goodTrack l.
Proof.
  intros [C R]. split; [eapply connected_tail; eauto | now inversion R].
Qed.

(** One iteration of the loop of [initializeTrack] adds the next segment
    and nothing else, or throws. *)
Lemma initStep_cases (i : Z) (a : InitAcc) (g : RNG) :
  (exists c p g',
      initStep i a g
      = (Normal (mkInit (initialTrack a ++ [nextSegment (lastSegment a) c p i])
                        (initialHazards a) (initialPowerUps a)
                        (nextSegment (lastSegment a) c p i)), g') /\
      ((i <= 2)%Z -> c = nofZ 0 /\ p = nofZ 0)) \/
  (exists e g', initStep i a g = (Throw e, g') /\ objectError e).
Proof.
  unfold initStep, bind, bindC.
  assert (B : forall m g0, (i <= 2)%Z ->
                fst (randomBend (2 <? i)%Z m g0) = nofZ 0).
  { intros m g0 H. apply Z.ltb_ge in H. now rewrite H. }
  pose proof (B TRACK.CURVATURE_MAX g) as Bc.
  destruct (randomBend _ _ g) as [c g1].
  pose proof (B TRACK.PITCH_MAX g1) as Bp.
  destruct (randomBend _ _ g1) as [p g2].
  destruct (chance _ _ g2) as [[|] g3].
  - destruct (scatter _ _ g3) as [hp g4]. right.
    exists HAZARD_TYPES_is_not_defined, g4. split; [reflexivity | now left].
  - cbn [ret]. destruct (chance _ _ g3) as [[|] g4].
    + destruct (scatter _ _ g4) as [pp g5]. right.
      exists POWERUP_TYPES_is_not_defined, g5. split; [reflexivity | now right].
    + left. exists c, p, g4. split; [reflexivity|]. intros H. split; auto.
Qed.

Lemma initLoop_shape (n : nat) (i : Z) (a : InitAcc) (g : RNG) :
  (1 <= i)%Z -> initShape i a ->
  match fst (initLoop (upFrom i n) a g) with
  | Normal a' => initShape (i + Z.of_nat n) a'
  | Throw e => objectError e
  end.
Proof.
  revert i a g. induction n as [|n IH]; intros i a g I Sh.
  - cbn. now replace (i + 0)%Z with i by lia.
  - cbn [upFrom initLoop]. unfold bindC.
    destruct (initStep_cases i a g) as [(c & p & g' & E & St) | (e & g' & E & Er)];
      rewrite E; [|exact Er].
    replace (i + Z.of_nat (S n))%Z with (i + 1 + Z.of_nat n)%Z by lia.
    apply IH; [lia|].
    destruct Sh as ((rest & T) & G & L & Id & Ids & Str & H & P).
    unfold initShape. cbn [initialTrack lastSegment initialHazards initialPowerUps].
    split; [exists (rest ++ [nextSegment (lastSegment a) c p i]); now rewrite T|].
    split.
    { replace i with (s_id (lastSegment a) + 1)%Z by lia.
      now apply goodTrack_next. }
    split; [apply lastOf_app|]. split; [cbn; lia|]. split.
    { rewrite map_app, Ids. cbn [map s_id nextSegment].
      replace (Z.to_nat (i + 1)) with (S (Z.to_nat i)) by lia.
      rewrite seq_S, map_app. cbn [map Nat.add]. f_equal. f_equal. lia. }
    split; [|split; assumption].
    apply Forall_app. split; [exact Str|]. constructor; [|constructor].
    cbn [s_id s_curvature s_pitch nextSegment]. exact St.
Qed.

(** [initializeTrack] builds the six segments 0 to 5 and no object, or
    throws. *)
Lemma initializeTrack_cases (state : GameState) (g : RNG) :
  match fst (initializeTrack state g) with
  | Normal s => freshTrack state s
  | Throw e => objectError e
  end.
Proof.
  unfold initializeTrack, bindC.
  pose proof (initLoop_shape 5 1 (mkInit [startSegment] [] [] startSegment) g) as H.
  change (upFrom 1 5) with [1; 2; 3; 4; 5]%Z in H.
  destruct (initLoop _ _ g) as [[a|e] g']; cbn [fst ret] in *.
  - destruct H as ((rest & T) & G & _ & _ & Ids & Str & Hz & Pu); [lia| |].
    { split; [now exists []|]. split.
      { split; [exact I | constructor; [|constructor]].
        split; [simpl; lia | reflexivity]. }
      do 3 (split; [reflexivity|]).
      split; [|split; reflexivity].
      constructor; [|constructor]. intros _. split; reflexivity. }
    exists rest. rewrite T in *. rewrite Hz, Pu.
    split; [reflexivity|]. split; [exact G|]. split; [exact Ids | exact Str].
  - apply H; [lia|].
    split; [now exists []|]. split.
    { split; [exact I | constructor; [|constructor]].
      split; [simpl; lia | reflexivity]. }
    do 3 (split; [reflexivity|]).
    split; [|split; reflexivity].
    constructor; [|constructor]. intros _. split; reflexivity.
Qed.

(** [generateNewTrackSegment] adds the next segment and no object, or
    throws. *)
Lemma generateNewTrackSegment_cases (state : GameState) (g : RNG) :
  match fst (generateNewTrackSegment state g) with
  | Normal s =>
      (track state = [] /\ s = state) \/
      exists ls c p,
        lastOf (track state) = Some ls /\
        s = with_track (track state ++ [nextSegment ls c p (s_id ls + 1)])
                       (hazards state) (powerUps state) state
  | Throw e => objectError e /\ track state <> []
  end.
Proof.
  unfold generateNewTrackSegment.
  destruct (lastOf (track state)) as [ls|] eqn:L.
  - assert (NE : track state <> []) by (intros E; rewrite E in L; discriminate).
    unfold bind, bindC.
    destruct (random g) as [c g1]. destruct (random g1) as [p g2].
    destruct (chance _ _ g2) as [[|] g3].
    + destruct (scatter _ _ g3) as [hp g4]. cbn. split; [now left | exact NE].
    + cbn [ret]. destruct (chance _ _ g3) as [[|] g4].
      * destruct (scatter _ _ g4) as [pp g5]. cbn. split; [now right | exact NE].
      * cbn. right. eauto.
  - cbn. left. split; [now apply lastOf_None | reflexivity].
Qed.

(** *** Draws that add no object *)








End TrackCode.

(* ================================================================== *)
(** ** The race fields: restart and checkpoints *)

Section RaceProofs.
Context {N : Number} {Rot : Rotations}.

Lemma GamePhase_eqb_eq (a b : GamePhase) : GamePhase_eqb a b = true <-> a = b.
Proof. destruct a, b; simpl; split; congruence. Qed.

(** [restartGame] resets the race over a fresh track, or throws. *)
Lemma restartGame_cases (state : GameState) (g : RNG) :
  match fst (restartGame state g) with
  | Normal s => exists live, freshTrack state live /\ s = resetRace READY live
  | Throw e => objectError e
  end.
Proof.
  unfold restartGame, bindC.
  pose proof (initializeTrack_cases state g) as H.
  destruct (initializeTrack state g) as [[live|e] g']; cbn [fst ret] in *;
    [exists live; split; [exact H | reflexivity] | exact H].
Qed.

(** [startGame] does nothing outside phase Ready; from Ready it starts
    the race over a fresh track, or throws. *)
Lemma startGame_cases (state : GameState) (g : RNG) :
  match fst (startGame state g) with
  | Normal s =>
      (phase state <> READY /\ s = state) \/
      (phase state = READY /\
       exists live, freshTrack state live /\ s = resetRace PLAYING live)
  | Throw e => objectError e /\ phase state = READY
  end.
Proof.
  unfold startGame.
  destruct (GamePhase_eqb (phase state) READY) eqn:E.
  - apply GamePhase_eqb_eq in E. unfold bindC.
    pose proof (initializeTrack_cases state g) as H.
    destruct (initializeTrack state g) as [[live|e] g']; cbn [fst ret] in *.
    + right. split; [exact E|]. exists live. split; [exact H | reflexivity].
    + split; assumption.
  - cbn. left. split; [|reflexivity].
    intros H. rewrite H in E. discriminate.
Qed.

(** C1 (as amended): for every state, a [restartGame] that completes sets
    the phase to Ready and resets the elapsed time to 0, the score to 0,
    the lap to 1 and the lap times to the empty list; the best lap time
    is the one the state had before. *)
Theorem restartGame_resets_race (state s : GameState) (g g' : RNG)
    (completes : restartGame state g = (Normal s, g')) :
  phase s = READY /\ time s = nofZ 0 /\ score s = 0%Z /\ lap s = 1%Z /\
  lapTimes s = [] /\ bestLapTime s = bestLapTime state.
Proof.
  pose proof (restartGame_cases state g) as H. rewrite completes in H.
  cbn [fst] in H. destruct H as (live & (rest & -> & _) & ->).
  repeat split.
Qed.

Lemma checkpointPassed_old (checkpointId : Z) (state : GameState) :
  (checkpointId <= lastCheckpointId state)%Z ->
  checkpointPassed checkpointId state = state.
Proof.
  intros H. unfold checkpointPassed.
  apply Z.leb_le in H. now rewrite H.
Qed.

Lemma checkpointPassed_last (checkpointId : Z) (state : GameState) :
  lastCheckpointId (checkpointPassed checkpointId state)
  = Z.max checkpointId (lastCheckpointId state).
Proof.
  unfold checkpointPassed.
  destruct (checkpointId <=? lastCheckpointId state)%Z eqn:E.
  - apply Z.leb_le in E. lia.
  - apply Z.leb_gt in E.
    destruct (_ && _); simpl; lia.
Qed.

Lemma passAll_last_le (ids : list Z) (state : GameState) :
  (lastCheckpointId state <= lastCheckpointId (passAll ids state))%Z.
Proof.
  unfold passAll. revert state.
  induction ids as [|i ids IH]; intros state; simpl.
  - lia.
  - specialize (IH (checkpointPassed i state)).
    rewrite checkpointPassed_last in IH. lia.
Qed.

(** C2: over every sequence of checkpoint-crossing events the stored
    last-accepted id does not decrease, and an event whose id is at most
    the current last-accepted id leaves the whole state (score, lap, lap
    times, best lap time, elapsed time) as it was. *)
Theorem checkpoint_monotonicity (ids : list Z) (checkpointId : Z)
    (state : GameState)
    (old : (checkpointId <= lastCheckpointId (passAll ids state))%Z) :
  (lastCheckpointId state <= lastCheckpointId (passAll ids state))%Z /\
  (lastCheckpointId (passAll ids state)
   <= lastCheckpointId (checkpointPassed checkpointId (passAll ids state)))%Z /\
  checkpointPassed checkpointId (passAll ids state) = passAll ids state.
Proof.
  split; [apply passAll_last_le|].
  rewrite (checkpointPassed_old _ _ old). split; [lia | reflexivity].
Qed.

(** [checkpointPassed] does not look at the phase. *)
Lemma checkpointPassed_any_phase (checkpointId : Z) (p : GamePhase)
    (state : GameState) :
  checkpointPassed checkpointId (with_phase p state)
  = with_phase p (checkpointPassed checkpointId state).
Proof.
  unfold checkpointPassed; simpl.
  destruct (_ <=? _)%Z; [reflexivity|].
  destruct (_ && _); reflexivity.
Qed.

(** *** Ticks *)

Lemma countdown_timeouts (deltaTime : num) (r : RocketState) :
  snd (countdown deltaTime r) =
  if isBoosting r && (boostTimeRemaining r - deltaTime <=? nofZ 0)
  then [setTimeout ClearBoostCooldown ROCKET.BOOST_COOLDOWN] else [].
Proof.
  unfold countdown. destruct (isBoosting r); cbn [andb]; [|reflexivity].
  destruct (_ <=? _); reflexivity.
Qed.

(** [updateRocket] throws on every call. *)
Lemma updateRocket_throws (deltaTime : num) (controls : Controls)
    (objs : list Object3D) (state : GameState) :
  updateRocket deltaTime controls objs state
  = (Throw Controls_is_not_defined, snd (countdown deltaTime (rocket state))).
Proof. unfold updateRocket. now destruct (countdown _ _). Qed.

Lemma gameFrame_idle (deltaTime : num) (controls : Controls)
    (objs : list Object3D) (state : GameState) (g : RNG) :
  phase state <> PLAYING ->
  gameFrame deltaTime controls objs state g = (state, None, [], g).
Proof.
  intros H. unfold gameFrame.
  destruct (GamePhase_eqb (phase state) PLAYING) eqn:E; [|reflexivity].
  apply GamePhase_eqb_eq in E. contradiction.
Qed.

(** In phase Playing the frame callback ends in [updateRocket]. *)
Lemma gameFrame_playing (deltaTime : num) (controls : Controls)
    (objs : list Object3D) (state : GameState) (g : RNG) :
  phase state = PLAYING ->
  gameFrame deltaTime controls objs state g
  = (state, Some Controls_is_not_defined,
     snd (countdown (clampedDelta deltaTime) (rocket state)), g).
Proof.
  intros P. unfold gameFrame. rewrite P. cbn [GamePhase_eqb].
  fold (clampedDelta deltaTime). now rewrite updateRocket_throws.
Qed.

(** A tick changes nothing in the store; all it can do is set the timeout
    that ends a boost cooldown. *)
Lemma tick_store (e : Event) (w : World) :
  isTick e = true ->
  store (step e w) = store w /\ rng (step e w) = rng w /\
  clock (step e w) = clock w /\
  exists ts, timers (step e w) = timers w ++ schedule (clock w) ts /\
             Forall (fun t => t = setTimeout ClearBoostCooldown ROCKET.BOOST_COOLDOWN)
                    ts.
Proof.
  assert (F : forall dt r,
             Forall (fun t => t = setTimeout ClearBoostCooldown ROCKET.BOOST_COOLDOWN)
                    (snd (countdown dt r))).
  { intros dt r. rewrite countdown_timeouts.
    destruct (_ && _); repeat constructor. }
  destruct e; try discriminate; intros _; cbn [step].
  - destruct (GamePhase_eqb (phase (store w)) PLAYING) eqn:E.
    + apply GamePhase_eqb_eq in E. rewrite (gameFrame_playing _ _ _ _ _ E).
      cbn [store rng clock timers]. repeat split. eexists. split; [reflexivity|].
      apply F.
    + rewrite gameFrame_idle by (intros H; rewrite H in E; discriminate).
      cbn [store rng clock timers]. repeat split. exists []. split; constructor.
  - rewrite updateRocket_throws. cbn [store rng clock timers commit].
    repeat split. eexists. split; [reflexivity | apply F].
Qed.


(** C8 (as amended): while the phase is not Playing the frame callback
    does nothing, so no checkpoint crossing is processed and the state
    (score, lap, lap times, best lap time, elapsed time, last-accepted id)
    stays as it is; [checkpointPassed] itself does not depend on the
    phase. *)
Theorem frame_outside_playing (w : World) (deltaTime : num)
    (controls : Controls) (objs : list Object3D)
    (idle : phase (store w) <> PLAYING) :
  store (step (Frame deltaTime controls objs) w) = store w /\
  forall checkpointId p,
    checkpointPassed checkpointId (with_phase p (store w))
    = with_phase p (checkpointPassed checkpointId (store w)).
Proof.
  split; [|intros; apply checkpointPassed_any_phase].
  cbn [step]. now rewrite gameFrame_idle.
Qed.

(** *** Every event is a sequence of updates *)

Lemma updateGameState_cases (deltaTime : num) (state : GameState) (g : RNG) :
  match fst (updateGameState deltaTime state g) with
  | Normal s =>
      (phase state <> PLAYING /\ s = state) \/
      (phase state = PLAYING /\
       exists s1 s2,
         (s1 = state \/
          exists ls c p,
            lastOf (track state) = Some ls /\
            s1 = with_track (track state ++ [nextSegment ls c p (s_id ls + 1)])
                            (hazards state) (powerUps state) state) /\
         (s2 = s1 \/ s2 = removeOldTrackSegment s1) /\
         s = updateTime deltaTime s2)
  | Throw e => objectError e /\ phase state = PLAYING /\ track state <> []
  end.
Proof.
  unfold updateGameState.
  destruct (GamePhase_eqb (phase state) PLAYING) eqn:E; cbn [negb].
  2:{ cbn. left. split; [|reflexivity]. intros H. rewrite H in E. discriminate. }
  apply GamePhase_eqb_eq in E. unfold bindC.
  match goal with |- context [let (_, _) := ?x in _] =>
    assert (match fst x with
            | Normal s1 =>
                s1 = state \/
                exists ls c p,
                  lastOf (track state) = Some ls /\
                  s1 = with_track (track state ++ [nextSegment ls c p (s_id ls + 1)])
                                  (hazards state) (powerUps state) state
            | Throw e => objectError e /\ track state <> []
            end) as H1; [|destruct x as [[s1|e] g1]] end.
  { destruct (lastOf (track state)) as [ls|] eqn:L; [|cbn; now left].
    destruct (_ <? _); [|cbn; now left].
    pose proof (generateNewTrackSegment_cases state g) as H.
    destruct (generateNewTrackSegment state g) as [[s1|e] g1]; cbn [fst] in *;
      [|exact H].
    destruct H as [[T _] | H]; [rewrite T in L; discriminate|].
    right. rewrite L in H. exact H. }
  - cbn [fst ret] in *. right. split; [exact E|].
    exists s1. eexists. split; [exact H1|]. split; [|reflexivity].
    destruct (track s1) as [|first rest]; [now left|].
    destruct (_ >? _); [now right | now left].
  - cbn [fst] in *. destruct H1 as [H1 H2]. repeat split; assumption.
Qed.

Lemma fireDue_update (now : num) (pending : list (num * Task)) (s : GameState) :
  update s (fst (fireDue now pending s)).
Proof.
  revert s. induction pending as [|[due t] l IH]; intros s; [apply update_none|].
  cbn [fireDue]. destruct (due <=? now).
  - eapply update_then; [apply update_task | apply IH].
  - specialize (IH s). destruct (fireDue now l s). exact IH.
Qed.

Lemma step_update (e : Event) (w : World) : update (store w) (store (step e w)).
Proof.
  destruct e.
  - cbn [step]. pose proof (fireDue_update (clock w + ms) (timers w) (store w)) as H.
    destruct (fireDue _ _ _). exact H.
  - rewrite (proj1 (tick_store (Frame deltaTime controls collisionObjects) w eq_refl)).
    apply update_none.
  - cbn [step]. pose proof (startGame_cases (store w) (rng w)) as H.
    destruct (startGame _ _) as [[s|e] g]; cbn [fst store commit] in *;
      [|apply update_none].
    destruct H as [[_ ->] | (_ & live & F & ->)];
      [apply update_none | now apply update_start].
  - cbn [step]. pose proof (restartGame_cases (store w) (rng w)) as H.
    destruct (restartGame _ _) as [[s|e] g]; cbn [fst store commit] in *;
      [|apply update_none].
    destruct H as (live & F & ->). now apply update_start.
  - apply update_end.
  - rewrite (proj1 (tick_store (UpdateRocket deltaTime controls collisionObjects) w
                      eq_refl)).
    apply update_none.
  - apply update_powerUp.
  - cbn [step]. pose proof (updateGameState_cases deltaTime (store w) (rng w)) as H.
    destruct (updateGameState _ _ _) as [[s|e] g]; cbn [fst store commit] in *;
      [|apply update_none].
    destruct H as [[_ ->] | (_ & s1 & s2 & H1 & H2 & ->)]; [apply update_none|].
    eapply update_then; [|apply update_time].
    eapply update_then with (s' := s1).
    + destruct H1 as [-> | (ls & c & p & L & ->)];
        [apply update_none | now apply update_generate].
    + destruct H2 as [-> | ->]; [apply update_none | apply update_remove].
  - cbn [step]. pose proof (generateNewTrackSegment_cases (store w) (rng w)) as H.
    destruct (generateNewTrackSegment _ _) as [[s|e] g]; cbn [fst store commit] in *;
      [|apply update_none].
    destruct H as [[_ ->] | (ls & c & p & L & ->)];
      [apply update_none | now apply update_generate].
  - apply update_remove.
  - apply update_checkpoint.
  - apply update_time.
  - cbn [step]. pose proof (initializeTrack_cases (store w) (rng w)) as H.
    destruct (initializeTrack _ _) as [[s|e] g]; cbn [fst store commit] in *;
      [now apply update_init | apply update_none].
Qed.

Lemma run_update (events : list Event) (w : World) :
  update (store w) (store (run events w)).
Proof.
  unfold run. revert w. induction events as [|e events IH]; intros w.
  - apply update_none.
  - cbn [fold_left]. eapply update_then; [apply step_update | apply IH].
Qed.

(** What the updates keep of a state, in every run. *)
Lemma run_invariant (P : GameState -> Prop) :
  (forall s s', update s s' -> P s -> P s') ->
  forall events g now, P initialState -> P (store (run events (world0 g now))).
Proof.
  intros K events g now P0.
  exact (K _ _ (run_update events (world0 g now)) P0).
Qed.

End RaceProofs.

(* ================================================================== *)
(** ** The track window *)

Section WindowProofs.
Context {N : Number} {Rot : Rotations}.

Lemma removeOldTrackSegment_track (s : GameState) :
  track (removeOldTrackSegment s) = track s \/
  exists first, track s = first :: track (removeOldTrackSegment s).
Proof.
  unfold removeOldTrackSegment.
  destruct (track s) as [|a [|b l]] eqn:T; [left; now rewrite T.. |].
  right. exists a. reflexivity.
Qed.

Lemma removeOldTrackSegment_last (s : GameState) :
  lastCheckpointId (removeOldTrackSegment s) = lastCheckpointId s.
Proof.
  unfold removeOldTrackSegment. destruct (track s) as [|a [|b l]]; reflexivity.
Qed.

Lemma update_wellFormed (s s' : GameState) :
  update s s' -> wellFormed s -> wellFormed s'.
Proof.
  induction 1 as [s | s s' s'' _ IH1 _ IH2 | t s | s live F | p s live F | won s
                  | ty s | checkpointId s | deltaTime s | s | s ls c p L];
    intros W.
  - exact W.
  - auto.
  - destruct t; exact W.
  - destruct F as (rest & -> & [C R] & _). destruct W as (L & _).
    split; [exact L | split; assumption].
  - destruct F as (rest & -> & [C R] & _). destruct W as (L & _).
    split; [exact L | split; assumption].
  - exact W.
  - destruct ty; exact W.
  - destruct W as (L & C & R). unfold wellFormed.
    rewrite checkpointPassed_last.
    assert (track (checkpointPassed checkpointId s) = track s) as ->.
    { unfold checkpointPassed. destruct (_ <=? _)%Z; [reflexivity|].
      destruct (_ && _); reflexivity. }
    split; [lia | split; assumption].
  - exact W.
  - destruct W as (L & C & R). unfold wellFormed.
    rewrite removeOldTrackSegment_last. split; [exact L|].
    destruct (removeOldTrackSegment_track s) as [-> | [first E]];
      [split; assumption|].
    rewrite E in C, R. apply (goodTrack_tail first). split; assumption.
  - destruct W as (Lc & C & R).
    destruct (goodTrack_next (track s) ls c p (conj C R) L) as [C' R'].
    split; [exact Lc | split; assumption].
Qed.

Lemma initialState_wellFormed : wellFormed initialState.
Proof. repeat split; simpl; [lia | constructor]. Qed.

Lemma run_wellFormed (events : list Event) (g : RNG) (now : num) :
  wellFormed (store (run events (world0 g now))).
Proof.
  apply (run_invariant wellFormed update_wellFormed), initialState_wellFormed.
Qed.

End WindowProofs.

Section WindowTheorems.
Context {N : Number} {Rot : Rotations}.

(** C5: in every track window that a sequence of events (initialisation,
    generation, eviction, frames and every other action) produces from the
    initial state, a segment ends exactly where the next one starts, and
    the next one carries its id plus 1. *)
Theorem track_window_connected (events : list Event) (g : RNG) (now : num)
    (i : nat) (a b : TrackSegment)
    (at_i : nth_error (track (store (run events (world0 g now)))) i = Some a)
    (at_next : nth_error (track (store (run events (world0 g now)))) (S i) = Some b) :
  s_end a = s_start b /\ s_id b = (s_id a + 1)%Z.
Proof.
  destruct (run_wellFormed events g now) as (_ & C & _).
  exact (connected_nth _ i a b C at_i at_next).
Qed.

(** C10: the first segment of an initialised track has id 0 and is flagged
    as a checkpoint; the last-accepted id starts at 0; in every state the
    store can reach, crossing checkpoint 0 changes nothing, and a
    checkpoint segment of the window whose crossing changes anything has
    an id of at least 3; crossing checkpoint 3 in the initial state scores
    100. *)
Theorem first_scoring_checkpoint (events : list Event) (g : RNG) (now : num) :
  let s := store (run events (world0 g now)) in
  (forall state g' live g'',
      initializeTrack state g' = (Normal live, g'') ->
      exists rest, track live = startSegment :: rest) /\
  s_id startSegment = 0%Z /\ s_isCheckpoint startSegment = true /\
  lastCheckpointId initialState = 0%Z /\
  checkpointPassed 0 s = s /\
  (forall seg, In seg (track s) -> s_isCheckpoint seg = true ->
               checkpointPassed (s_id seg) s <> s -> (3 <= s_id seg)%Z) /\
  score (checkpointPassed 3 initialState) = 100%Z /\
  lastCheckpointId (checkpointPassed 3 initialState) = 3%Z.
Proof.
  intros s.
  destruct (run_wellFormed events g now) as (L & _ & R). fold s in L, R.
  split.
  { intros state g' live g'' E.
    pose proof (initializeTrack_cases state g') as H. rewrite E in H.
    destruct H as (rest & -> & _). now exists rest. }
  do 3 (split; [reflexivity|]).
  split; [apply checkpointPassed_old; exact L|].
  split; [|split; reflexivity].
  intros seg I C Ch.
  rewrite Forall_forall in R. destruct (R seg I) as [Pos Reg].
  rewrite C in Reg. symmetry in Reg. apply Z.eqb_eq in Reg.
  destruct (Z_le_gt_dec (s_id seg) (lastCheckpointId s)) as [Le|Gt].
  - elim Ch. now apply checkpointPassed_old.
  - unfold TRACK.CHECKPOINT_INTERVAL in Reg.
    destruct (Z.eq_dec (s_id seg) 1) as [E|]; [rewrite E in Reg; discriminate|].
    destruct (Z.eq_dec (s_id seg) 2) as [E|]; [rewrite E in Reg; discriminate|].
    lia.
Qed.

Lemma crossing_fold (pos prev : Vector3) (segs : list TrackSegment) (init : Checkpoint) :
  fold_left (crossing pos prev) segs init =
  match find (crosses pos prev) (rev segs) with
  | Some seg => mkCheckpoint true (s_id seg)
  | None => init
  end.
Proof.
  induction segs as [|seg segs IH] using rev_ind; [reflexivity|].
  rewrite fold_left_app, rev_app_distr. cbn [fold_left rev app find].
  unfold crossing at 1. fold (crosses pos prev seg).
  destruct (crosses pos prev seg); [reflexivity | exact IH].
Qed.

(** C7 (as amended): the result of [detectCollisions] holds one checkpoint
    entry; when some checkpoint segment meets the crossing condition the
    entry is that of the last such segment in segment order, and otherwise
    it is [{ collided: false, id: -1 }]. *)
Theorem checkpoint_report_is_last_crossing (pos prev size : Vector3)
    (segs : list TrackSegment) (hz : list Hazard) (pu : list PowerUp) :
  checkpoint (detectCollisions pos prev size segs hz pu) =
  match find (crosses pos prev) (rev segs) with
  | Some seg => mkCheckpoint true (s_id seg)
  | None => mkCheckpoint false (-1)
  end.
Proof. apply crossing_fold. Qed.

End WindowTheorems.

(* ================================================================== *)
(** ** The rocket *)

Section RocketProofs.
Context {N : Number} {Rot : Rotations}.

(** No update moves the rocket, damages it or sets its boost cooldown. *)
Lemma update_parked (s s' : GameState) :
  update s s' -> parked (rocket s) -> parked (rocket s').
Proof.
  induction 1 as [s | s s' s'' _ IH1 _ IH2 | t s | s live F | p s live F | won s
                  | ty s | checkpointId s | deltaTime s | s | s ls c p L];
    intros P.
  - exact P.
  - auto.
  - destruct t; [|exact P]. destruct P as (P1 & P2 & P3 & P4 & P5 & _).
    repeat split; assumption.
  - destruct F as (rest & -> & _). exact P.
  - repeat split.
  - exact P.
  - destruct P as (P1 & P2 & P3 & P4 & P5 & P6).
    destruct ty; repeat split; assumption.
  - unfold checkpointPassed. destruct (_ <=? _)%Z; [exact P|].
    destruct (_ && _); exact P.
  - exact P.
  - unfold removeOldTrackSegment. destruct (track s) as [|a [|b l]]; exact P.
  - exact P.
Qed.

Lemma rocket0_parked : parked rocket0.
Proof. repeat split. Qed.

Lemma run_parked (events : list Event) (g : RNG) (now : num) :
  parked (rocket (store (run events (world0 g now)))).
Proof.
  apply (run_invariant (fun s => parked (rocket s)) update_parked), rocket0_parked.
Qed.

(** No update adds a hazard or a power-up. *)
Lemma update_bare (s s' : GameState) : update s s' -> bare s -> bare s'.
Proof.
  induction 1 as [s | s s' s'' _ IH1 _ IH2 | t s | s live F | p s live F | won s
                  | ty s | checkpointId s | deltaTime s | s | s ls c p L];
    intros B.
  - exact B.
  - auto.
  - destruct t; exact B.
  - destruct F as (rest & -> & _). split; reflexivity.
  - destruct F as (rest & -> & _). split; reflexivity.
  - exact B.
  - destruct ty; exact B.
  - unfold checkpointPassed. destruct (_ <=? _)%Z; [exact B|].
    destruct (_ && _); exact B.
  - exact B.
  - destruct B as [H P]. unfold removeOldTrackSegment.
    destruct (track s) as [|a [|b l]]; try (split; assumption).
    unfold bare. cbn [hazards powerUps with_track]. rewrite H, P.
    split; reflexivity.
  - exact B.
Qed.

Lemma run_bare (events : list Event) (g : RNG) (now : num) :
  bare (store (run events (world0 g now))).
Proof.
  apply (run_invariant bare update_bare). split; reflexivity.
Qed.

(** *** Timers *)




End RocketProofs.


(* ================================================================== *)
(** ** Further properties of the store *)

Section InitialTrack.
Context {N : Number} {Rot : Rotations}.


End InitialTrack.

Section RaceInvariant.
Context {N : Number} {Rot : Rotations}.

Section Kept.
Variable P : GameState -> Prop.
Hypothesis P_fields : forall s s',
  lap s' = lap s -> score s' = score s -> lapTimes s' = lapTimes s ->
  bestLapTime s' = bestLapTime s -> P s -> P s'.
Hypothesis P_pass : forall checkpointId s, P s -> P (checkpointPassed checkpointId s).
Hypothesis P_reset : forall p live, P (resetRace p live).

(** A property of the lap, the score, the lap times and the best lap time
    that [checkpointPassed] keeps and a new race meets holds in every
    run. *)
Lemma update_kept (s s' : GameState) : update s s' -> P s -> P s'.
Proof.
  induction 1 as [s | s s' s'' _ IH1 _ IH2 | t s | s live F | p s live F | won s
                  | ty s | checkpointId s | deltaTime s | s | s ls c p L];
    intros H.
  - exact H.
  - auto.
  - apply (P_fields s); try exact H; destruct t; reflexivity.
  - destruct F as (rest & -> & _). now apply (P_fields s).
  - apply P_reset.
  - now apply (P_fields s).
  - apply (P_fields s); try exact H; destruct ty; reflexivity.
  - now apply P_pass.
  - now apply (P_fields s).
  - apply (P_fields s); try exact H; unfold removeOldTrackSegment;
      destruct (track s) as [|a [|b l]]; reflexivity.
  - now apply (P_fields s).
Qed.

Lemma run_kept (events : list Event) (g : RNG) (now : num) :
  P initialState -> P (store (run events (world0 g now))).
Proof. apply (run_invariant P update_kept). Qed.

End Kept.

Lemma len_app {A} (l l' : list A) : len (l ++ l') = (len l + len l')%Z.
Proof. unfold len. rewrite length_app. lia. Qed.

Lemma raceCounts_pass (checkpointId : Z) (s : GameState) :
  raceCounts s -> raceCounts (checkpointPassed checkpointId s).
Proof.
  intros (L & S0 & S100). unfold checkpointPassed.
  destruct (_ <=? _)%Z; [repeat split; assumption|].
  destruct (_ && _); unfold raceCounts; cbn [lap lapTimes score].
  - rewrite len_app. unfold len at 2. cbn [List.length].
    split; [lia|]. split; [lia|].
    replace (score s + 100 + 500)%Z with (score s + 6 * 100)%Z by lia.
    rewrite Z.rem_add; [exact S100 | discriminate | nia].
  - split; [exact L|]. split; [lia|].
    replace (score s + 100)%Z with (score s + 1 * 100)%Z by lia.
    rewrite Z.rem_add; [exact S100 | discriminate | nia].
Qed.

(** X2: in every state the store reaches, the lap counter is one more
    than the number of recorded lap times, and the score is a
    non-negative multiple of 100. *)
Theorem lap_counts_lap_times (events : list Event) (g : RNG) (now : num) :
  let s := store (run events (world0 g now)) in
  lap s = (1 + len (lapTimes s))%Z /\ (0 <= score s)%Z /\ Z.rem (score s) 100 = 0%Z.
Proof.
  apply (run_kept raceCounts).
  - intros s s' E1 E2 E3 _ H. unfold raceCounts. now rewrite E1, E2, E3.
  - intros. now apply raceCounts_pass.
  - intros p live. repeat split; reflexivity || (simpl; lia).
  - repeat split; reflexivity || (simpl; lia).
Qed.

Lemma passAll_cons (i : Z) (ids : list Z) (s : GameState) :
  passAll (i :: ids) s = passAll ids (checkpointPassed i s).
Proof. reflexivity. Qed.

Lemma checkpointPassed_counts (i : Z) (s : GameState) :
  score (checkpointPassed i s)
  = (score s + 100 * (if (i <=? lastCheckpointId s)%Z then 0 else 1)
     + 500 * (lap (checkpointPassed i s) - lap s))%Z /\
  (lap s <= lap (checkpointPassed i s))%Z /\
  len (lapTimes (checkpointPassed i s))
  = (len (lapTimes s) + (lap (checkpointPassed i s) - lap s))%Z.
Proof.
  unfold checkpointPassed. destruct (i <=? lastCheckpointId s)%Z; [repeat split; lia|].
  destruct (_ && _); cbn [score lap lapTimes].
  - rewrite len_app. unfold len at 2. cbn [List.length]. repeat split; lia.
  - repeat split; lia.
Qed.

(** X3: over every sequence of checkpoint events, the last-accepted id
    ends as the greatest of the ids and the id it started from, the score
    grows by 100 for each accepted event and by 500 more for each lap
    completed, and one lap time is recorded per lap completed. *)
Theorem checkpoint_scoring (ids : list Z) (s : GameState) :
  lastCheckpointId (passAll ids s) = fold_left Z.max ids (lastCheckpointId s) /\
  score (passAll ids s)
  = (score s + 100 * accepted ids (lastCheckpointId s)
     + 500 * (lap (passAll ids s) - lap s))%Z /\
  (lap s <= lap (passAll ids s))%Z /\
  len (lapTimes (passAll ids s))
  = (len (lapTimes s) + (lap (passAll ids s) - lap s))%Z.
Proof.
  revert s. induction ids as [|i ids IH]; intros s.
  - unfold passAll. cbn [fold_left accepted]. repeat split; lia.
  - rewrite passAll_cons. cbn [fold_left accepted].
    destruct (IH (checkpointPassed i s)) as (L & Sc & La & Lt).
    destruct (checkpointPassed_counts i s) as (Sc1 & La1 & Lt1).
    rewrite L, Sc, Lt, Sc1, Lt1, checkpointPassed_last. clear IH L Sc Lt Sc1 Lt1.
    rewrite (Z.max_comm (lastCheckpointId s) i).
    destruct (i <=? lastCheckpointId s)%Z eqn:E.
    + apply Z.leb_le in E. rewrite Z.max_r by lia. repeat split; lia.
    + apply Z.leb_gt in E. rewrite Z.max_l by lia. repeat split; lia.
Qed.

End RaceInvariant.

Section BestLap.
Context {Rot : @Rotations Exact}.

(** X4: in exact arithmetic, in every state the store reaches the best
    lap time is at most every recorded lap time, and it is set as soon as
    a lap time is recorded. *)
Theorem best_lap_is_least (events : list Event) (g : @RNG Exact) (now : @num Exact) :
  let s := store (run events (world0 g now)) in
  (forall best, bestLapTime s = Some best ->
                Forall (fun t => (best <= t)%R) (lapTimes s)) /\
  (bestLapTime s = None -> lapTimes s = []).
Proof.
  assert (H : bestIsLeast (store (run events (world0 g now)))).
  { apply (run_kept bestIsLeast).
    - intros s s' _ _ E3 E4 H. unfold bestIsLeast. now rewrite E3, E4.
    - intros i s H. unfold checkpointPassed. destruct (_ <=? _)%Z; [exact H|].
      destruct (_ && _); [|exact H].
      unfold bestIsLeast in *. cbn [bestLapTime lapTimes].
      destruct (bestLapTime s) as [best|].
      + cbn [nltb Exact]. unfold Rnum.ltb.
        destruct (Rlt_dec (time s) best) as [Lt|Ge]; apply Forall_app; split.
        * eapply Forall_impl; [|exact H]. cbn beta. intros t Ht. lra.
        * constructor; [lra | constructor].
        * exact H.
        * constructor; [lra | constructor].
      + rewrite H. constructor; [lra | constructor].
    - intros p live. unfold bestIsLeast. cbn [bestLapTime lapTimes resetRace].
      destruct (bestLapTime live); [constructor | reflexivity].
    - reflexivity. }
  cbn zeta. unfold bestIsLeast in H.
  destruct (bestLapTime _) as [b|]; split; try discriminate.
  - intros best E. injection E as <-. exact H.
  - intros _. exact H.
Qed.

End BestLap.

Section WindowAndRocket.
Context {N : Number} {Rot : Rotations}.

Lemma update_playing_track (s s' : GameState) :
  update s s' ->
  (phase s = PLAYING -> track s <> []) -> phase s' = PLAYING -> track s' <> [].
Proof.
  induction 1 as [s | s s' s'' _ IH1 _ IH2 | t s | s live F | p s live F | won s
                  | ty s | checkpointId s | deltaTime s | s | s ls c p L];
    intros H P.
  - auto.
  - auto.
  - destruct t; [exact (H P)|]. destruct won; discriminate.
  - destruct F as (rest & -> & _). discriminate.
  - destruct F as (rest & -> & _). discriminate.
  - destruct won; discriminate.
  - destruct ty; exact (H P).
  - assert (phase (checkpointPassed checkpointId s) = phase s
            /\ track (checkpointPassed checkpointId s) = track s) as [E1 E2].
    { unfold checkpointPassed. destruct (_ <=? _)%Z; [split; reflexivity|].
      destruct (_ && _); split; reflexivity. }
    rewrite E2. apply H. now rewrite <- E1.
  - exact (H P).
  - assert (phase (removeOldTrackSegment s) = phase s) as E
      by (unfold removeOldTrackSegment; destruct (track s) as [|a [|b l]];
          reflexivity).
    rewrite E in P. specialize (H P). unfold removeOldTrackSegment.
    destruct (track s) as [|a [|b l]] eqn:T; try (rewrite T; exact H).
    cbn [track with_track]. discriminate.
  - cbn [track with_track]. intros E. apply app_eq_nil in E.
    destruct E as [_ E]. discriminate.
Qed.

(** X5: while a game is being played the track window is never empty:
    in every state of phase Playing that a sequence of events reaches
    from the initial state, eviction included, at least one segment
    remains. *)
Theorem window_never_empty (events : list Event) (g : RNG) (now : num)
    (playing : phase (store (run events (world0 g now))) = PLAYING) :
  track (store (run events (world0 g now))) <> [] /\
  (1 <= len (track (store (run events (world0 g now)))))%Z.
Proof.
  assert (H : track (store (run events (world0 g now))) <> []).
  { apply (update_playing_track _ _ (run_update events (world0 g now)));
      [discriminate | exact playing]. }
  split; [exact H|].
  destruct (track _); [contradiction | unfold len; cbn [List.length]; lia].
Qed.

Lemma fireDue_health (now : num) (pending : list (num * Task)) (s : GameState) :
  health (rocket (fst (fireDue now pending s))) = health (rocket s).
Proof.
  revert s. induction pending as [|[due t] l IH]; intros s; [reflexivity|].
  cbn [fireDue]. destruct (due <=? now).
  - rewrite IH. now destruct t.
  - specialize (IH s). destruct (fireDue now l s). exact IH.
Qed.

(** X6: the health never rises during a game: every event other than
    [startGame] and [restartGame] leaves it as it is or lowers it. *)
Theorem health_never_rises (e : Event) (w : World)
    (during : isReset e = false) :
  (health (rocket (store (step e w))) <= health (rocket (store w)))%Z.
Proof.
  destruct e; try discriminate.
  - cbn [step]. pose proof (fireDue_health (clock w + ms) (timers w) (store w)) as H.
    destruct (fireDue _ _ _). cbn [fst store] in *. lia.
  - rewrite (proj1 (tick_store (Frame deltaTime controls collisionObjects) w eq_refl)).
    lia.
  - cbn. lia.
  - rewrite (proj1 (tick_store (UpdateRocket deltaTime controls collisionObjects) w
                      eq_refl)). lia.
  - cbn [step store]. unfold activatePowerUp. destruct type; cbn; lia.
  - cbn [step]. pose proof (updateGameState_cases deltaTime (store w) (rng w)) as H.
    destruct (updateGameState _ _ _) as [[s|e] g]; cbn [fst store commit] in *;
      [|lia].
    destruct H as [[_ ->] | (_ & s1 & s2 & H1 & H2 & ->)]; [lia|].
    assert (rocket s1 = rocket (store w)) as E1
      by (destruct H1 as [-> | (ls & c & p & _ & ->)]; reflexivity).
    assert (rocket s2 = rocket s1) as E2.
    { destruct H2 as [-> | ->]; [reflexivity|]. unfold removeOldTrackSegment.
      destruct (track s1) as [|a [|b l]]; reflexivity. }
    cbn [rocket updateTime with_time]. rewrite E2, E1. lia.
  - cbn [step]. pose proof (generateNewTrackSegment_cases (store w) (rng w)) as H.
    destruct (generateNewTrackSegment _ _) as [[s|e] g]; cbn [fst store commit] in *;
      [|lia].
    destruct H as [[_ ->] | (ls & c & p & _ & ->)]; cbn; lia.
  - cbn [step store]. unfold removeOldTrackSegment.
    destruct (track (store w)) as [|a [|b l]]; cbn; lia.
  - cbn [step store]. unfold checkpointPassed. destruct (_ <=? _)%Z; [lia|].
    destruct (_ && _); cbn; lia.
  - cbn. lia.
  - cbn [step]. pose proof (initializeTrack_cases (store w) (rng w)) as H.
    destruct (initializeTrack _ _) as [[s|e] g]; cbn [fst store commit] in *;
      [|lia].
    destruct H as (rest & -> & _). cbn. lia.
Qed.


(** X8: the rocket never moves, is never damaged, and meets no object: in
    every state that a sequence of events reaches from the initial state
    it is at its starting position with its starting rotation, at rest,
    with health 100 and no boost cooldown, and the store holds no hazard
    and no power-up. *)
Theorem rocket_never_moves (events : list Event) (g : RNG) (now : num) :
  let s := store (run events (world0 g now)) in
  position (rocket s) = vec3 (nofZ 0) (nofZ 2) (nofZ 0) /\
  rotation (rocket s) = euler0 /\
  velocity (rocket s) = vec3 (nofZ 0) (nofZ 0) (nofZ 0) /\
  speed (rocket s) = nofZ 0 /\ health (rocket s) = 100%Z /\
  boostCooldown (rocket s) = false /\
  hazards s = [] /\ powerUps s = [].
Proof.
  cbn zeta. destruct (run_parked events g now) as (P1 & P2 & P3 & P4 & P5 & P6).
  destruct (run_bare events g now) as [H Pu].
  repeat split; assumption.
Qed.

End WindowAndRocket.

Section StreamingAndStart.
Context {N : Number} {Rot : Rotations}.

Lemma removeOldTrackSegment_length (s : GameState) :
  (len (track s) - 1 <= len (track (removeOldTrackSegment s)) <= len (track s))%Z.
Proof.
  unfold removeOldTrackSegment, len.
  destruct (track s) as [|a [|b l]] eqn:T; try (rewrite T; cbn [List.length]; lia).
  cbn [track with_track List.length]. lia.
Qed.

Lemma removeOldTrackSegment_fields (s : GameState) :
  rocket (removeOldTrackSegment s) = rocket s /\
  score (removeOldTrackSegment s) = score s /\
  lap (removeOldTrackSegment s) = lap s /\
  lastCheckpointId (removeOldTrackSegment s) = lastCheckpointId s /\
  phase (removeOldTrackSegment s) = phase s /\
  time (removeOldTrackSegment s) = time s.
Proof.
  unfold removeOldTrackSegment. destruct (track s) as [|a [|b l]]; repeat split.
Qed.

(** X9: [updateGameState] does nothing, and draws no random number,
    unless the phase is Playing.  In phase Playing it either throws in
    [generateNewTrackSegment], before anything is written, or completes:
    then it has added [deltaTime] to the elapsed time, added at most one
    segment to the window and evicted at most one, and left the rocket,
    the score, the lap and the last-accepted checkpoint id alone. *)
Theorem updateGameState_streams (deltaTime : num) (state : GameState) (g : RNG) :
  (phase state <> PLAYING ->
   updateGameState deltaTime state g = (Normal state, g)) /\
  (forall s g', updateGameState deltaTime state g = (Normal s, g') ->
     (phase state = PLAYING -> time s = time state + deltaTime) /\
     (len (track state) - 1 <= len (track s) <= len (track state) + 1)%Z /\
     rocket s = rocket state /\ score s = score state /\ lap s = lap state /\
     lastCheckpointId s = lastCheckpointId state /\ phase s = phase state) /\
  (forall e g', updateGameState deltaTime state g = (Throw e, g') ->
     (e = HAZARD_TYPES_is_not_defined \/ e = POWERUP_TYPES_is_not_defined) /\
     phase state = PLAYING /\ track state <> []).
Proof.
  pose proof (updateGameState_cases deltaTime state g) as H.
  split; [|split].
  - intros P. unfold updateGameState.
    destruct (GamePhase_eqb (phase state) PLAYING) eqn:E; [|reflexivity].
    apply GamePhase_eqb_eq in E. contradiction.
  - intros s g' E. rewrite E in H. cbn [fst] in H.
    destruct H as [[P ->] | (P & s1 & s2 & H1 & H2 & ->)].
    { split; [intros Q; contradiction|]. repeat split; lia. }
    assert (T1 : (len (track state) <= len (track s1) <= len (track state) + 1)%Z
                 /\ rocket s1 = rocket state /\ score s1 = score state
                 /\ lap s1 = lap state
                 /\ lastCheckpointId s1 = lastCheckpointId state
                 /\ phase s1 = phase state /\ time s1 = time state).
    { destruct H1 as [-> | (ls & c & p & _ & ->)]; [repeat split; lia|].
      cbn [track with_track]. unfold len. rewrite length_app. cbn [List.length].
      repeat split; lia. }
    assert (T2 : (len (track s1) - 1 <= len (track s2) <= len (track s1))%Z
                 /\ rocket s2 = rocket s1 /\ score s2 = score s1 /\ lap s2 = lap s1
                 /\ lastCheckpointId s2 = lastCheckpointId s1
                 /\ phase s2 = phase s1 /\ time s2 = time s1).
    { destruct H2 as [-> | ->]; [repeat split; lia|].
      split; [apply removeOldTrackSegment_length|].
      destruct (removeOldTrackSegment_fields s1) as (A & B & C & D & E1 & F).
      repeat split; assumption. }
    destruct T1 as (L1 & R1 & S1 & La1 & C1 & P1 & Ti1).
    destruct T2 as (L2 & R2 & S2 & La2 & C2 & P2 & Ti2).
    cbn [time track rocket score lap lastCheckpointId phase updateTime with_time].
    split; [intros _; now rewrite Ti2, Ti1|].
    split; [lia|]. repeat split; congruence.
  - intros e g' E. rewrite E in H. exact H.
Qed.



End StreamingAndStart.

(* ================================================================== *)
(** ** The boost and shield countdowns *)

Section ExactCharge.
Context {Rot : @Rotations Exact}.
Local Open Scope R_scope.

Lemma update_charged (s s' : @GameState Exact Rot) :
  update s s' -> charged (rocket s) -> charged (rocket s').
Proof.
  induction 1 as [s | s s' s'' _ IH1 _ IH2 | t s | s live F | p s live F | won s
                  | ty s | checkpointId s | deltaTime s | s | s ls c p L];
    intros C.
  - exact C.
  - auto.
  - destruct t; exact C.
  - destruct F as (rest & -> & _). exact C.
  - split; discriminate.
  - exact C.
  - destruct C as [B Sh]. unfold activatePowerUp, charged.
    destruct ty;
      cbn [rocket with_rocket isBoosting boostTimeRemaining isShielded
           shieldTimeRemaining r_with_boost r_with_shield];
      split; auto; intros _; unfold ROCKET.BOOST_DURATION;
      cbn [num nofZ Exact]; lra.
  - unfold checkpointPassed. destruct (_ <=? _)%Z; [exact C|].
    destruct (_ && _); exact C.
  - exact C.
  - unfold removeOldTrackSegment. destruct (track s) as [|a [|b l]]; exact C.
  - exact C.
Qed.

(** X22: in exact arithmetic, in every state reached from the initial
    one by any sequence of events, a boost that is on has boost time left
    and a shield that is on has shield time left. *)
Theorem boost_and_shield_have_time_left (events : list (@Event Exact))
    (g : @RNG Exact) (now : R) :
  let r := rocket (store (run events (@world0 Exact Rot g now))) in
  (isBoosting r = true -> 0 < boostTimeRemaining r) /\
  (isShielded r = true -> 0 < shieldTimeRemaining r).
Proof.
  cbn zeta.
  apply (run_invariant (fun s => charged (rocket s)) update_charged).
  split; discriminate.
Qed.

End ExactCharge.

(* ================================================================== *)
(** ** collisionDetection.ts *)

Section Reports.
Context {N : Number} {Rot : Rotations}.

Lemma checkCheckpointCollision_still (pos : Vector3) (segment : TrackSegment) :
  checkCheckpointCollision pos pos segment = false.
Proof.
  unfold checkCheckpointCollision. destruct (negb _); [reflexivity|].
  now rewrite xorb_nilpotent.
Qed.

(** X11: what [detectCollisions] reports: the hazards and power-ups
    reported are exactly the active entries of the lists given whose box
    meets the rocket's; a reported checkpoint id is the id of a segment
    given that is flagged as a checkpoint, and the id is -1 when none is
    reported; a rocket that has not moved reports no checkpoint, and an
    empty track reports neither a boundary collision nor a checkpoint. *)
Theorem detectCollisions_sound (pos prev size : Vector3)
    (segs : list TrackSegment) (hz : list Hazard) (pu : list PowerUp) :
  let res := detectCollisions pos prev size segs hz pu in
  (forall h, In h (r_hazards res) <->
             In h hz /\ h_active h = true /\ checkHazardCollision pos size h = true) /\
  (forall p, In p (r_powerUps res) <->
             In p pu /\ p_active p = true /\ checkPowerUpCollision pos size p = true) /\
  (collided (checkpoint res) = true ->
   exists seg, In seg segs /\ s_isCheckpoint seg = true /\
               id (checkpoint res) = s_id seg) /\
  (collided (checkpoint res) = false -> id (checkpoint res) = (-1)%Z) /\
  (pos = prev -> collided (checkpoint res) = false) /\
  (segs = [] -> trackBoundary res = false /\ collided (checkpoint res) = false).
Proof.
  cbn zeta. unfold detectCollisions. cbn [r_hazards r_powerUps checkpoint trackBoundary].
  split; [|split].
  - intros h. rewrite filter_In, andb_true_iff. tauto.
  - intros p. rewrite filter_In, andb_true_iff. tauto.
  - rewrite crossing_fold.
    destruct (find (crosses pos prev) (rev segs)) as [seg|] eqn:F.
    + apply find_some in F. destruct F as [I C].
      apply in_rev in I. unfold crosses in C. apply andb_prop in C.
      split; [intros _; exists seg; repeat split; tauto|].
      split; [discriminate|]. split.
      * intros ->. destruct C as [_ C].
        rewrite checkCheckpointCollision_still in C. discriminate.
      * intros ->. destruct I.
    + split; [discriminate|]. split; [reflexivity|]. split; [reflexivity|].
      intros ->. split; reflexivity.
Qed.

End Reports.


(* ================================================================== *)
(** ** Geometry, in exact arithmetic *)

Section ExactGeometry.
Local Open Scope R_scope.

Ltac exact_arith :=
  cbn [num nofZ nadd nsub nopp nmul ndiv nsqrt nltb nleb nmax nmin nltInfinity
       nfloor Exact] in *.

Lemma ltb_true (a b : R) : Rnum.ltb a b = true <-> a < b.
Proof. unfold Rnum.ltb. destruct (Rlt_dec a b); split; (congruence || tauto). Qed.

Lemma ltb_false (a b : R) : Rnum.ltb a b = false <-> b <= a.
Proof.
  unfold Rnum.ltb. destruct (Rlt_dec a b); split; try congruence; try lra.
Qed.

Lemma vlength_nonneg (v : @Vector3 Exact) : 0 <= vlength v.
Proof. apply sqrt_pos. Qed.

Lemma vlength_scale (v : @Vector3 Exact) (k : R) :
  vlength (multiplyScalar v k) = Rabs k * vlength v.
Proof.
  unfold vlength, lengthSq, dot, multiplyScalar. cbn [vx vy vz]. exact_arith.
  replace (vx v * k * (vx v * k) + vy v * k * (vy v * k) + vz v * k * (vz v * k))
    with (Rsqr k * (vx v * vx v + vy v * vy v + vz v * vz v))
    by (unfold Rsqr; ring).
  rewrite sqrt_mult_alt by apply Rle_0_sqr.
  now rewrite sqrt_Rsqr_abs.
Qed.

Lemma normalize_unit (v : @Vector3 Exact) : 0 < vlength v -> vlength (normalize v) = 1.
Proof.
  intros P. unfold normalize, divideScalar, nor, falsy. exact_arith.
  assert (Rnum.ltb 0 (vlength v) = true) as -> by now apply ltb_true.
  rewrite andb_false_r. rewrite vlength_scale.
  rewrite Rabs_right by (apply Rle_ge; apply Rlt_le; apply Rdiv_lt_0_compat; lra).
  field. lra.
Qed.

Lemma leb_true (a b : R) : Rnum.leb a b = true <-> a <= b.
Proof. unfold Rnum.leb. destruct (Rle_dec a b); split; (congruence || tauto). Qed.

Lemma Rabs_le_iff (a b : R) : Rabs a <= b <-> - b <= a <= b.
Proof. unfold Rabs. destruct (Rcase_abs a); lra. Qed.

(** X12: in exact arithmetic [checkHazardCollision] is the overlap of
    two axis-aligned boxes: it holds exactly when, on every axis, the
    centres of the rocket and of the hazard are no further apart than
    half the sum of the rocket's size on that axis and the hazard's
    size. *)
Theorem checkHazardCollision_overlap (pos size : @Vector3 Exact)
    (hazard : @Hazard Exact) :
  checkHazardCollision pos size hazard = true <->
  Rabs (vx pos - vx (h_position hazard)) <= (vx size + h_size hazard) / 2 /\
  Rabs (vy pos - vy (h_position hazard)) <= (vy size + h_size hazard) / 2 /\
  Rabs (vz pos - vz (h_position hazard)) <= (vz size + h_size hazard) / 2.
Proof.
  unfold checkHazardCollision, intersectsBox, setFromCenterAndSize,
    multiplyScalar, vadd, vsub, lit.
  cbn [bmin bmax vx vy vz]. exact_arith.
  rewrite !andb_true_iff, !leb_true, !Rabs_le_iff. lra.
Qed.

Lemma closer_closestOf (pos : @Vector3 Exact) (segs seen : list (@TrackSegment Exact))
    (best : option (@TrackSegment Exact * @num Exact)) :
  closestOf pos seen best ->
  closestOf pos (seen ++ segs) (fold_left (closer pos) segs best).
Proof.
  revert seen best. induction segs as [|seg segs IH]; intros seen best H.
  - now rewrite app_nil_r.
  - cbn [fold_left].
    replace (seen ++ seg :: segs) with ((seen ++ [seg]) ++ segs)
      by (rewrite <- app_assoc; reflexivity).
    apply IH. unfold closer. fold (distanceToSegment pos seg).
    destruct best as [[s d]|]; cbn [closestOf] in *.
    + destruct H as (I & E & F). exact_arith.
      destruct (Rnum.ltb (distanceToSegment pos seg) d) eqn:L.
      * apply ltb_true in L. split; [apply in_or_app; right; now left|].
        split; [reflexivity|]. apply Forall_app. split.
        -- eapply Forall_impl; [|exact F]. cbn beta. intros s' Hs. lra.
        -- constructor; [lra | constructor].
      * apply ltb_false in L. split; [apply in_or_app; now left|].
        split; [exact E|]. apply Forall_app. split; [exact F|].
        constructor; [lra | constructor].
    + subst seen. cbn [app]. split; [now left|]. split; [reflexivity|].
      constructor; [lra | constructor].
Qed.

(** X13: in exact arithmetic, on a track whose segments have a length
    other than 0 and all have the width [W],
    [checkTrackBoundaryCollision] reports a collision exactly when every
    segment is further from the rocket than half the width less half the
    rocket's larger horizontal size less 0.2; on an empty track it
    reports none. *)
Theorem checkTrackBoundaryCollision_nearest (pos size : @Vector3 Exact)
    (segs : list (@TrackSegment Exact)) (W : R)
    (proper_segments : Forall proper segs)
    (same_width : Forall (fun s => s_width s = W) segs) :
  (segs = [] -> checkTrackBoundaryCollision pos size segs = false) /\
  (segs <> [] ->
   (checkTrackBoundaryCollision pos size segs = true <->
    forall seg, In seg segs ->
      W / 2 - nmax (vx size) (vz size) / 2 - 2 / 10 < distanceToSegment pos seg)).
Proof.
  split; [intros ->; reflexivity|]. intros NE.
  unfold checkTrackBoundaryCollision.
  pose proof (closer_closestOf pos segs [] None eq_refl) as H. cbn [app] in H.
  destruct (fold_left (closer pos) segs None) as [[s d]|]; cbn [closestOf] in H;
    [|contradiction].
  destruct H as (I & E & F). rewrite Forall_forall in F, same_width.
  rewrite (same_width s I). unfold lit. exact_arith. rewrite ltb_true.
  split.
  - intros L seg Hs. specialize (F seg Hs). lra.
  - intros A. specialize (A s I). lra.
Qed.

Lemma nearer_nearestOf (pos : @Vector3 Exact) (segs seen : list (@TrackSegment Exact))
    (st : Z * @Closest Exact) :
  nearestOf pos seen st ->
  nearestOf pos (seen ++ segs) (fold_left (nearer pos) segs st).
Proof.
  revert seen st. induction segs as [|seg segs IH]; intros seen st H.
  - now rewrite app_nil_r.
  - cbn [fold_left].
    replace (seen ++ seg :: segs) with ((seen ++ [seg]) ++ segs)
      by (rewrite <- app_assoc; reflexivity).
    apply IH. destruct st as [index best]. unfold nearer.
    fold (distanceToSegment pos seg).
    destruct H as [Ix H]. cbn [fst snd] in *. unfold nearestOf. cbn [fst snd].
    split; [rewrite len_app; unfold len at 2; cbn [List.length]; lia|].
    assert (Here : nth_error (seen ++ [seg]) (Z.to_nat index) = Some seg).
    { rewrite Ix. unfold len. rewrite Nat2Z.id, nth_error_app2 by lia.
      now rewrite Nat.sub_diag. }
    assert (Pos : (0 <= index < len (seen ++ [seg]))%Z).
    { rewrite len_app, Ix. unfold len. cbn [List.length]. lia. }
    destruct (cl_distance best) as [d|] eqn:D.
    + destruct H as (s & Hn & Hi & E & Pt & F). exact_arith.
      destruct (Rnum.ltb (distanceToSegment pos seg) d) eqn:L;
        cbn [cl_distance cl_segmentIndex cl_point]; rewrite ?D.
      * apply ltb_true in L. exists seg.
        split; [exact Here|]. split; [exact Pos|]. split; [reflexivity|].
        split; [reflexivity|]. apply Forall_app. split.
        -- eapply Forall_impl; [|exact F]. cbn beta. intros s' Hs. lra.
        -- constructor; [lra | constructor].
      * apply ltb_false in L. exists s.
        split; [rewrite nth_error_app1; [exact Hn|]; unfold len in Hi; lia|].
        split; [rewrite len_app; unfold len in *; cbn [List.length]; lia|].
        split; [exact E|]. split; [exact Pt|].
        apply Forall_app. split; [exact F|]. constructor; [lra | constructor].
    + destruct H as [-> _]. cbn [cl_distance cl_segmentIndex cl_point].
      exists seg. split; [exact Here|]. split; [exact Pos|].
      split; [reflexivity|]. split; [reflexivity|].
      constructor; [lra | constructor].
Qed.

(** X14: in exact arithmetic, on a track whose segments have a length
    other than 0, [getClosestPointOnTrack] finds a nearest segment: when
    the track is not empty the index it returns is within the track, the
    point is the closest point of that segment, and the distance is that
    to the segment and at most the distance to every other segment;
    [isWithinTrackBounds] then compares this distance with the segment's
    width times the buffer, halved.  On an empty track the index is -1
    and [isWithinTrackBounds] is false. *)
Theorem getClosestPointOnTrack_nearest (pos : @Vector3 Exact)
    (segs : list (@TrackSegment Exact)) (buffer : R)
    (proper_segments : Forall proper segs) :
  let c := getClosestPointOnTrack segs pos in
  (segs = [] -> cl_segmentIndex c = (-1)%Z /\ cl_distance c = None /\
                isWithinTrackBounds pos segs buffer = false) /\
  (segs <> [] ->
   exists seg d,
     nth_error segs (Z.to_nat (cl_segmentIndex c)) = Some seg /\
     (0 <= cl_segmentIndex c < len segs)%Z /\
     cl_distance c = Some d /\ d = distanceToSegment pos seg /\
     cl_point c = closestPointToPoint (s_start seg) (s_end seg) pos /\
     (forall s', In s' segs -> d <= distanceToSegment pos s') /\
     (isWithinTrackBounds pos segs buffer = true <->
      d <= s_width seg * buffer / 2)).
Proof.
  cbn zeta. split; [intros ->; repeat split|]. intros NE.
  unfold isWithinTrackBounds, getClosestPointOnTrack.
  pose proof (nearer_nearestOf pos segs []
                (0%Z, mkClosest (vec3 (nofZ 0) (nofZ 0) (nofZ 0)) None (-1)%Z)) as H.
  cbn [app] in H. destruct H as [_ H]; [split; [reflexivity | split; reflexivity]|].
  destruct (fold_left (nearer pos) segs _) as [index c]. cbn [snd] in *.
  destruct (cl_distance c) as [d|]; [|destruct H; contradiction].
  destruct H as (s & Hn & Hi & E & Pt & F).
  exists s, d. rewrite Hn.
  split; [reflexivity|]. split; [exact Hi|]. split; [reflexivity|].
  split; [exact E|]. split; [exact Pt|].
  split; [now apply Forall_forall|].
  assert ((cl_segmentIndex c <? 0)%Z = false) as -> by (apply Z.ltb_ge; lia).
  exact_arith. apply leb_true.
Qed.

End ExactGeometry.


(* ================================================================== *)
(** ** trackGenerator.ts *)

Section GeneratorProofs.
Context {N : Number} {Rot : Rotations}.

Lemma lastOf_nth (l : list TrackSegment) (ls : TrackSegment) :
  lastOf l = Some ls -> nth_error l (Z.to_nat (len l - 1)) = Some ls.
Proof.
  induction l as [|a l IH]; [discriminate|]. intros H.
  destruct l as [|b l].
  - cbn in H. injection H as ->. reflexivity.
  - rewrite lastOf_cons in H. specialize (IH H).
    unfold len in *. cbn [List.length] in *.
    replace (Z.to_nat (Z.of_nat (S (S (List.length l))) - 1))
      with (S (Z.to_nat (Z.of_nat (S (List.length l)) - 1))) by lia.
    exact IH.
Qed.

Lemma findSegment_found (rest : list TrackSegment) (d : num) (k : Z) (r : TrackPoint) :
  (0 <= k)%Z -> findSegment rest d k = Some r ->
  (k <= tp_segmentIndex r < k + len rest)%Z /\
  exists seg, nth_error rest (Z.to_nat (tp_segmentIndex r - k)) = Some seg /\
              tp_direction r = s_direction seg.
Proof.
  revert d k. induction rest as [|seg rest IH]; intros d k K H; [discriminate|].
  cbn [findSegment] in H. unfold len. cbn [List.length].
  destruct (d <=? distanceTo (s_start seg) (s_end seg)).
  - injection H as <-. cbn [tp_segmentIndex tp_direction].
    split; [lia|]. exists seg. rewrite Z.sub_diag. split; reflexivity.
  - assert (0 <= k + 1)%Z as K1 by lia.
    destruct (IH _ _ K1 H) as (R & s & Hn & D). unfold len in R.
    split; [lia|]. exists s. split; [|exact D].
    replace (Z.to_nat (tp_segmentIndex r - k))
      with (S (Z.to_nat (tp_segmentIndex r - (k + 1)))) by lia.
    exact Hn.
Qed.

(** X15: [getPointOnTrack] returns the index -1, the origin and the
    direction (0, 0, -1) on an empty track; on any other track, whatever
    the distance, the index it returns is within the track and the
    direction is that of the segment at this index. *)
Theorem getPointOnTrack_index (segs : list TrackSegment) (distance : num) :
  let p := getPointOnTrack segs distance in
  (segs = [] ->
   tp_segmentIndex p = (-1)%Z /\
   tp_position p = vec3 (nofZ 0) (nofZ 0) (nofZ 0) /\
   tp_direction p = vec3 (nofZ 0) (nofZ 0) (nopp (nofZ 1))) /\
  (segs <> [] ->
   (0 <= tp_segmentIndex p < len segs)%Z /\
   exists seg, nth_error segs (Z.to_nat (tp_segmentIndex p)) = Some seg /\
               tp_direction p = s_direction seg).
Proof.
  cbn zeta. split; [intros ->; repeat split|]. intros NE.
  unfold getPointOnTrack.
  destruct (lastOf segs) as [ls|] eqn:L.
  - destruct (findSegment segs distance 0) as [r|] eqn:F.
    + destruct (findSegment_found segs distance 0 r (Z.le_refl 0) F) as (R & s & Hn & D).
      split; [lia|]. exists s. rewrite Z.sub_0_r in Hn. split; assumption.
    + cbn [tp_segmentIndex tp_direction].
      assert (1 <= len segs)%Z
        by (destruct segs; [contradiction | unfold len; cbn [List.length]; lia]).
      split; [lia|]. exists ls. split; [now apply lastOf_nth | reflexivity].
  - destruct segs as [|a l]; [contradiction|]. exfalso.
    clear NE. revert a L. induction l as [|b l IH]; intros a L; [discriminate|].
    rewrite lastOf_cons in L. now apply (IH b).
Qed.

Lemma genStep_adds (i : Z) (a : GenAcc) (g : RNG) :
  exists seg g',
    genStep i a g = (mkGen (segments a ++ [seg]) (s_end seg) (s_direction seg), g') /\
    s_start seg = currentPoint a /\ s_id seg = i /\
    s_isCheckpoint seg = (Z.rem i TRACK.CHECKPOINT_INTERVAL =? 0)%Z.
Proof.
  unfold genStep, bind.
  destruct (randomBend _ _ g) as [c g1]. destruct (randomBend _ _ g1) as [p g2].
  cbn [ret].
  exists {| s_start := currentPoint a;
            s_end := vadd (currentPoint a)
                          (multiplyScalar (bend (currentDirection a) c p)
                                          TRACK.SEGMENT_LENGTH);
            s_direction := bend (currentDirection a) c p;
            s_width := TRACK.WIDTH;
            s_curvature := c;
            s_pitch := p;
            s_isCheckpoint := (Z.rem i TRACK.CHECKPOINT_INTERVAL =? 0)%Z;
            s_id := i |}, g2.
  repeat split.
Qed.

Lemma genLoop_shape (startPoint : Vector3) (n : nat) (i : Z) (a : GenAcc) (g : RNG) :
  (0 <= i)%Z -> genShape startPoint i a ->
  genShape startPoint (i + Z.of_nat n) (fst (genLoop (upFrom i n) a g)).
Proof.
  revert i a g. induction n as [|n IH]; intros i a g I Sh.
  - replace (i + Z.of_nat 0)%Z with i by lia. exact Sh.
  - cbn [upFrom genLoop]. unfold bind.
    destruct (genStep_adds i a g) as (seg & g' & E & St & Id & Ck). rewrite E.
    replace (i + Z.of_nat (S n))%Z with (i + 1 + Z.of_nat n)%Z by lia.
    apply IH; [lia|].
    destruct Sh as ([C R] & Ids & La & Hd).
    unfold genShape. cbn [segments currentPoint].
    split; [split|split; [|split]].
    + destruct (lastOf (segments a)) as [ls|] eqn:L.
      * apply (connected_snoc _ ls); auto; [congruence|].
        assert (s_id ls = i - 1)%Z; [|lia].
        pose proof (lastOf_nth _ _ L) as Hn.
        assert (nth_error (map s_id (segments a)) (Z.to_nat (len (segments a) - 1))
                = Some (s_id ls)) as Hm by (rewrite nth_error_map, Hn; reflexivity).
        rewrite Ids in Hm.
        assert (len (segments a) = i) as Ln.
        { unfold len. rewrite <- (length_map s_id), Ids, length_map, length_seq. lia. }
        rewrite Ln, nth_error_map in Hm.
        destruct (nth_error (seq 0 (Z.to_nat i)) (Z.to_nat (i - 1))) as [k|] eqn:Q;
          [|discriminate].
        assert (Z.to_nat (i - 1) < List.length (seq 0 (Z.to_nat i)))%nat as LT
          by (apply nth_error_Some; congruence).
        rewrite length_seq in LT.
        apply nth_error_nth with (d := 0%nat) in Q.
        rewrite seq_nth in Q by lia. cbn in Hm. injection Hm as <-. lia.
      * destruct (segments a) as [|x l]; [exact Logic.I|].
        exfalso. clear -L. revert x L.
        induction l as [|b l IH']; intros x L; [discriminate|].
        rewrite lastOf_cons in L. now apply (IH' b).
    + apply Forall_app. split; [exact R|]. constructor; [|constructor].
      split; [lia | congruence].
    + rewrite map_app, Ids. cbn [map]. rewrite Id.
      replace (Z.to_nat (i + 1)) with (S (Z.to_nat i)) by lia.
      rewrite seq_S, map_app. cbn [map Nat.add]. f_equal. f_equal. lia.
    + now rewrite lastOf_app.
    + destruct (segments a) as [|x l] eqn:Sg; cbn [app]; [|exact Hd].
      cbn [lastOf] in La. unfold lastOf in La. cbn in La. congruence.
Qed.

(** X16: [generateTrackSegments] returns [numSegments] segments (none
    when the number is not positive) with the ids 0, 1, 2, ..., a
    checkpoint at every multiple of 3, each starting where the one before
    it ends, the first at [startPoint]. *)
Theorem generateTrackSegments_shape (startPoint initialDirection : Vector3)
    (numSegments : Z) (g : RNG) :
  let segs := fst (generateTrackSegments startPoint initialDirection numSegments g) in
  len segs = Z.max 0 numSegments /\
  map s_id segs = map Z.of_nat (seq 0 (Z.to_nat numSegments)) /\
  connected segs /\ Forall regular segs /\
  (forall first rest, segs = first :: rest -> s_start first = startPoint).
Proof.
  cbn zeta. unfold generateTrackSegments, bind.
  pose proof (genLoop_shape startPoint (Z.to_nat numSegments) 0
                (mkGen [] startPoint initialDirection) g) as H.
  destruct (genLoop _ _ g) as [a g']. cbn [fst ret] in *.
  destruct H as ([C R] & Ids & _ & Hd); [lia| |].
  { split; [split; [exact Logic.I | constructor]|].
    split; [reflexivity|]. split; reflexivity || exact Logic.I. }
  replace (0 + Z.of_nat (Z.to_nat numSegments))%Z with (Z.max 0 numSegments) in Ids by lia.
  replace (Z.to_nat (Z.max 0 numSegments)) with (Z.to_nat numSegments) in Ids by lia.
  split.
  - unfold len. rewrite <- (length_map s_id), Ids, length_map, length_seq. lia.
  - split; [exact Ids|]. split; [exact C|]. split; [exact R|].
    intros first rest E. rewrite E in Hd. exact Hd.
Qed.

Lemma upFrom_In (j : Z) (n : nat) (i : Z) :
  In i (upFrom j n) <-> (j <= i < j + Z.of_nat n)%Z.
Proof.
  revert j. induction n as [|n IH]; intros j; cbn [upFrom In].
  - lia.
  - rewrite IH. lia.
Qed.

Lemma upFrom_length (j : Z) (n : nat) : List.length (upFrom j n) = n.
Proof. revert j. induction n as [|n IH]; intros j; cbn; [|rewrite IH]; reflexivity. Qed.

Lemma hazardLoop_ids (segment : TrackSegment) (indices : list Z)
    (acc : list Hazard) (g : RNG) :
  exists hs, fst (hazardLoop segment indices acc g) = acc ++ hs /\
             map h_id hs = map (fun i => (s_id segment * 100 + i)%Z) indices /\
             Forall (fun h => h_active h = true) hs.
Proof.
  revert acc g. induction indices as [|i indices IH]; intros acc g.
  - exists []. cbn. rewrite app_nil_r. repeat split. constructor.
  - cbn [hazardLoop]. unfold bind at 1.
    assert (exists h g', hazardFor segment i g = (h, g') /\
                         h_id h = (s_id segment * 100 + i)%Z /\ h_active h = true)
      as (h & g' & E & Hi & Ha).
    { unfold hazardFor, bind. destruct (place _ _ _ _ g) as [p g1].
      destruct (random g1) as [y g2]. destruct (random g2) as [k g3].
      destruct (random g3) as [sz g4]. cbn [ret]. do 2 eexists.
      split; [reflexivity|]. split; reflexivity. }
    rewrite E. destruct (IH (acc ++ [h]) g') as (hs & E' & Ids & Act).
    exists (h :: hs). rewrite E', <- app_assoc. split; [reflexivity|].
    cbn [map]. rewrite Hi, Ids. split; [reflexivity|]. now constructor.
Qed.

Lemma powerUpLoop_ids (segment : TrackSegment) (indices : list Z)
    (acc : list PowerUp) (g : RNG) :
  exists ps, fst (powerUpLoop segment indices acc g) = acc ++ ps /\
             map p_id ps = map (fun i => (s_id segment * 100 + i + 50)%Z) indices /\
             Forall (fun p => p_active p = true) ps.
Proof.
  revert acc g. induction indices as [|i indices IH]; intros acc g.
  - exists []. cbn. rewrite app_nil_r. repeat split. constructor.
  - cbn [powerUpLoop]. unfold bind at 1.
    assert (exists p g', powerUpFor segment i g = (p, g') /\
                         p_id p = (s_id segment * 100 + i + 50)%Z /\ p_active p = true)
      as (p & g' & E & Hi & Ha).
    { unfold powerUpFor, bind. destruct (place _ _ _ _ g) as [q g1].
      destruct (random g1) as [y g2]. destruct (random g2) as [k g3].
      cbn [ret]. do 2 eexists. split; [reflexivity|]. split; reflexivity. }
    rewrite E. destruct (IH (acc ++ [p]) g') as (ps & E' & Ids & Act).
    exists (p :: ps). rewrite E', <- app_assoc. split; [reflexivity|].
    cbn [map]. rewrite Hi, Ids. split; [reflexivity|]. now constructor.
Qed.

End GeneratorProofs.


(* ================================================================== *)
(** ** Generated ids and physics.ts, in exact arithmetic *)

Section ExactGenerators.
Context {Rot : @Rotations Exact}.
Local Open Scope R_scope.

Ltac exact_nums :=
  cbn [num nofZ nadd nsub nopp nmul ndiv nsqrt nltb nleb nmax nmin nltInfinity
       nfloor Exact] in *.

(** [Math.floor(Math.random() * K)] is one of 0, ..., K - 1. *)
Lemma floor_draw (r : R) (K : Z) :
  0 <= r < 1 -> (0 < K)%Z -> (0 <= Int_part (r * IZR K) <= K - 1)%Z.
Proof.
  intros [r0 r1] HK. destruct (base_Int_part (r * IZR K)) as [lo hi].
  assert (0 < IZR K) as PK by (apply IZR_lt; lia).
  assert (0 <= r * IZR K) by (apply Rmult_le_pos; lra).
  assert (r * IZR K < IZR K) by nra.
  split.
  - assert (-1 < Int_part (r * IZR K))%Z; [|lia]. apply lt_IZR. lra.
  - assert (Int_part (r * IZR K) < K)%Z; [|lia]. apply lt_IZR. lra.
Qed.

Lemma upFrom_NoDup (j : Z) (n : nat) : NoDup (upFrom j n).
Proof.
  revert j. induction n as [|n IH]; intros j; cbn [upFrom]; constructor.
  - rewrite upFrom_In. lia.
  - apply IH.
Qed.

Lemma NoDup_map_inj {A B : Type} (f : A -> B) (l : list A) :
  (forall a b, f a = f b -> a = b) -> NoDup l -> NoDup (map f l).
Proof.
  intros Inj ND. induction ND as [|a l NI ND IH]; cbn [map]; constructor; [|exact IH].
  intros I. apply in_map_iff in I. destruct I as (b & E & I).
  apply Inj in E. now subst b.
Qed.

Lemma ids_in_slot (sid off : Z) (n : nat) (ids : list Z) :
  ids = map (fun i => (sid * 100 + i + off)%Z) (upFrom 0 n) ->
  (0 <= off)%Z -> (off + Z.of_nat n <= 100)%Z ->
  NoDup ids /\
  Forall (fun id => (id / 100 = sid)%Z /\
                    (off <= id - sid * 100 < off + Z.of_nat n)%Z) ids.
Proof.
  intros -> O B. split.
  - apply NoDup_map_inj; [|apply upFrom_NoDup].
    intros a b E. lia.
  - apply Forall_forall. intros id I. apply in_map_iff in I.
    destruct I as (i & <- & I). apply upFrom_In in I. split; [|lia].
    replace (sid * 100 + i + off)%Z with (sid * 100 + (i + off))%Z by lia.
    rewrite Z.div_add_l by lia. rewrite Z.div_small by lia. lia.
Qed.

(** X17: in [trackGenerator.ts] the ids name the segment.  With draws in
    [0, 1), [generateHazardsForSegment] returns at most 3 hazards, none
    for a segment id below 2, and [generatePowerUpsForSegment] at most 2
    power-ups, none for a segment id below 1; all are active, their ids
    are distinct, the whole part of an id divided by 100 is the segment's
    id, and the rest is 0, 1 or 2 for a hazard and 50 or 51 for a
    power-up. *)
Theorem generated_ids_name_segment (segment : @TrackSegment Exact)
    (hazardDensity powerUpDensity : R) (g g' : @RNG Exact)
    (draws : unitDraws g) (draws' : unitDraws g') :
  let hs := fst (generateHazardsForSegment segment hazardDensity g) in
  let ps := fst (generatePowerUpsForSegment segment powerUpDensity g') in
  (len hs <= 3)%Z /\ (len ps <= 2)%Z /\
  ((s_id segment < 2)%Z -> hs = []) /\
  ((s_id segment < 1)%Z -> ps = []) /\
  NoDup (map h_id hs) /\ NoDup (map p_id ps) /\
  Forall (fun h => h_active h = true /\ (h_id h / 100 = s_id segment)%Z /\
                   (0 <= h_id h - s_id segment * 100 < 3)%Z) hs /\
  Forall (fun p => p_active p = true /\ (p_id p / 100 = s_id segment)%Z /\
                   (50 <= p_id p - s_id segment * 100 < 52)%Z) ps.
Proof.
  cbn zeta.
  assert (H : forall hs, hs = fst (generateHazardsForSegment segment hazardDensity g) ->
    (len hs <= 3)%Z /\ ((s_id segment < 2)%Z -> hs = []) /\
    NoDup (map h_id hs) /\
    Forall (fun h => h_active h = true /\ (h_id h / 100 = s_id segment)%Z /\
                     (0 <= h_id h - s_id segment * 100 < 3)%Z) hs).
  { intros hs E. unfold generateHazardsForSegment in E.
    destruct (s_id segment <? 2)%Z eqn:Lt.
    { subst hs. cbn. repeat split; try lia; constructor. }
    apply Z.ltb_ge in Lt. unfold bind at 1, random at 1 in E. cbv beta iota in E.
    exact_nums. destruct (Rnum.ltb _ _).
    { subst hs. cbn. repeat split; try lia; constructor. }
    unfold bind at 1, random at 1 in E. cbv beta iota zeta in E.
    pose proof (floor_draw (g 1%nat) 3 (draws 1%nat) eq_refl) as F. exact_nums.
    unfold Rnum.floor in E.
    set (k := Int_part (g 1%nat * 3)) in *.
    destruct (hazardLoop_ids segment (upFrom 0 (Z.to_nat (k + 1))) []
                (fun n => g (S (S n)))) as (hs' & E' & Ids & Act).
    rewrite E' in E. cbn [app] in E. subst hs'.
    destruct (ids_in_slot (s_id segment) 0 (Z.to_nat (k + 1)) (map h_id hs))
      as [ND Sl]; [|lia|lia|].
    { rewrite Ids. apply map_ext. intros i. lia. }
    split.
    { unfold len. rewrite <- (length_map h_id), Ids, length_map, upFrom_length. lia. }
    split; [lia|]. split; [exact ND|].
    rewrite Forall_map in Sl. rewrite Forall_forall in *.
    intros h I. specialize (Sl h I). specialize (Act h I). cbn beta in Sl.
    split; [exact Act|]. split; [tauto | lia]. }
  assert (P : forall ps, ps = fst (generatePowerUpsForSegment segment powerUpDensity g') ->
    (len ps <= 2)%Z /\ ((s_id segment < 1)%Z -> ps = []) /\
    NoDup (map p_id ps) /\
    Forall (fun p => p_active p = true /\ (p_id p / 100 = s_id segment)%Z /\
                     (50 <= p_id p - s_id segment * 100 < 52)%Z) ps).
  { intros ps E. unfold generatePowerUpsForSegment in E.
    destruct (s_id segment <? 1)%Z eqn:Lt.
    { subst ps. cbn. repeat split; try lia; constructor. }
    apply Z.ltb_ge in Lt. unfold bind at 1, random at 1 in E. cbv beta iota in E.
    exact_nums. destruct (Rnum.ltb _ _).
    { subst ps. cbn. repeat split; try lia; constructor. }
    unfold bind at 1, random at 1 in E. cbv beta iota zeta in E.
    pose proof (floor_draw (g' 1%nat) 2 (draws' 1%nat) eq_refl) as F. exact_nums.
    unfold Rnum.floor in E.
    set (k := Int_part (g' 1%nat * 2)) in *.
    destruct (powerUpLoop_ids segment (upFrom 0 (Z.to_nat (k + 1))) []
                (fun n => g' (S (S n)))) as (ps' & E' & Ids & Act).
    rewrite E' in E. cbn [app] in E. subst ps'.
    destruct (ids_in_slot (s_id segment) 50 (Z.to_nat (k + 1)) (map p_id ps))
      as [ND Sl]; [exact Ids|lia|lia|].
    split.
    { unfold len. rewrite <- (length_map p_id), Ids, length_map, upFrom_length. lia. }
    split; [lia|]. split; [exact ND|].
    rewrite Forall_map in Sl. rewrite Forall_forall in *.
    intros p I. specialize (Sl p I). specialize (Act p I). cbn beta in Sl.
    split; [exact Act|]. split; [tauto | lia]. }
  specialize (H _ eq_refl). specialize (P _ eq_refl).
  tauto.
Qed.

Lemma reflect_lengthSq (v normal : @Vector3 Exact) :
  dot normal normal = 1 -> lengthSq (reflect v normal) = lengthSq v.
Proof.
  unfold lengthSq, reflect, dot, vsub, multiplyScalar. cbn [vx vy vz]. exact_nums.
  intros U.
  set (d := vx v * vx normal + vy v * vy normal + vz v * vz normal).
  transitivity (vx v * vx v + vy v * vy v + vz v * vz v - 4 * d * d
                + 4 * d * d * (vx normal * vx normal + vy normal * vy normal
                               + vz normal * vz normal)); [unfold d; ring|].
  rewrite U. ring.
Qed.

(** X19: in exact arithmetic [bounce] off a surface with a unit normal
    reverses the component of the velocity along the normal and scales
    the velocity: the speed after is the speed before times the absolute
    value of the bounce factor. *)
Theorem bounce_unit_normal (velocity normal : @Vector3 Exact) (bounceFactor : R)
    (unit_normal : dot normal normal = 1) :
  vlength (bounce velocity normal bounceFactor)
    = Rabs bounceFactor * vlength velocity /\
  dot (bounce velocity normal bounceFactor) normal
    = - bounceFactor * dot velocity normal.
Proof.
  unfold bounce. split.
  - rewrite vlength_scale. unfold vlength.
    now rewrite reflect_lengthSq.
  - revert unit_normal.
    unfold reflect, dot, vsub, multiplyScalar. cbn [vx vy vz]. exact_nums.
    intros U.
    set (d := vx velocity * vx normal + vy velocity * vy normal
              + vz velocity * vz normal).
    transitivity (bounceFactor * (d - 2 * d * (vx normal * vx normal
                    + vy normal * vy normal + vz normal * vz normal)));
      [unfold d; ring|].
    rewrite U. ring.
Qed.

Lemma vlength_zero (v : @Vector3 Exact) :
  vlength v = 0 -> vx v = 0 /\ vy v = 0 /\ vz v = 0.
Proof.
  unfold vlength, lengthSq, dot. exact_nums. intros H.
  apply sqrt_eq_0 in H; [|nra]. nra.
Qed.

Lemma normalize_length (v : @Vector3 Exact) : vlength (normalize v) <= 1.
Proof.
  destruct (Rle_lt_or_eq_dec 0 (vlength v) (vlength_nonneg v)) as [P|Z].
  - rewrite normalize_unit by exact P. lra.
  - symmetry in Z. unfold normalize, divideScalar. rewrite vlength_scale, Z. lra.
Qed.

(** X20: in exact arithmetic [calculateInterceptVelocity] returns a
    velocity of magnitude [|speed|] when the target is not the source; it
    is the displacement from the source to the target scaled by the speed
    over the distance.  When the target is the source it is the zero
    vector. *)
Theorem calculateInterceptVelocity_speed (source target : @Vector3 Exact) (speed : R) :
  let v := calculateInterceptVelocity source target speed in
  (source = target -> v = vec3 0 0 0) /\
  (source <> target ->
   vlength v = Rabs speed /\
   v = multiplyScalar (vsub target source) (speed / distanceTo target source)).
Proof.
  cbn zeta. unfold calculateInterceptVelocity. split.
  - intros ->. unfold normalize, divideScalar, multiplyScalar, vsub.
    cbn [vx vy vz]. exact_nums. f_equal; ring.
  - intros NE.
    assert (0 < vlength (vsub target source)) as P.
    { destruct (Rle_lt_or_eq_dec 0 _ (vlength_nonneg (vsub target source)))
        as [P|Z]; [exact P|]. exfalso. apply NE.
      symmetry in Z. apply vlength_zero in Z. unfold vsub in Z. cbn [vx vy vz] in Z.
      exact_nums. destruct source as [a b c], target as [a' b' c'].
      cbn [vx vy vz] in Z. f_equal; lra. }
    split.
    + rewrite vlength_scale, normalize_unit by exact P. lra.
    + unfold distanceTo, normalize, divideScalar, nor, falsy. exact_nums.
      assert (Rnum.ltb 0 (vlength (vsub target source)) = true) as ->
        by now apply ltb_true.
      rewrite andb_false_r. unfold multiplyScalar. cbn [vx vy vz]. exact_nums.
      f_equal; field; lra.
Qed.

Lemma vlength_negate (v : @Vector3 Exact) : vlength (negate v) = vlength v.
Proof.
  unfold vlength, lengthSq, dot, negate. cbn [vx vy vz]. exact_nums.
  f_equal. ring.
Qed.

(** X21: in exact arithmetic [applyGravityAnomaly] leaves the velocity
    as it is when the anomaly is further than 20 away, and otherwise
    changes it by at most [|strength| * |deltaTime|] in magnitude: the
    inverse-square factor is capped at 1. *)
Theorem applyGravityAnomaly_bounded (position velocity anomalyPosition : @Vector3 Exact)
    (strength deltaTime : R) (isPull : bool) :
  let v := applyGravityAnomaly position velocity anomalyPosition strength
                               isPull deltaTime in
  (20 < distanceTo anomalyPosition position -> v = velocity) /\
  vlength (vsub v velocity) <= Rabs strength * Rabs deltaTime.
Proof.
  cbn zeta. unfold applyGravityAnomaly, distanceTo.
  set (f := vsub anomalyPosition position).
  assert (Z0 : vlength (vsub velocity velocity) = 0).
  { unfold vlength, lengthSq, dot, vsub. cbn [vx vy vz]. exact_nums.
    replace ((vx velocity - vx velocity) * (vx velocity - vx velocity)
             + (vy velocity - vy velocity) * (vy velocity - vy velocity)
             + (vz velocity - vz velocity) * (vz velocity - vz velocity))
      with 0 by ring. apply sqrt_0. }
  assert (NN : 0 <= Rabs strength * Rabs deltaTime)
    by (apply Rmult_le_pos; apply Rabs_pos).
  exact_nums. destruct (Rnum.ltb 20 (vlength f)) eqn:Far.
  - split; [reflexivity|]. rewrite Z0. exact NN.
  - split; [intros L; apply ltb_true in L; congruence|].
    set (dir := if negb isPull then negate (normalize f) else normalize f).
    set (m := strength / Rnum.max 1 (vlength f * vlength f) * deltaTime).
    assert (vsub (addScaledVector velocity dir m) velocity = multiplyScalar dir m) as ->.
    { unfold vsub, addScaledVector, multiplyScalar. cbn [vx vy vz]. exact_nums.
      f_equal; ring. }
    rewrite vlength_scale.
    assert (vlength dir <= 1) as D.
    { unfold dir. destruct (negb isPull); rewrite ?vlength_negate;
        apply normalize_length. }
    assert (Rabs m <= Rabs strength * Rabs deltaTime) as M.
    { unfold m. rewrite Rabs_mult. apply Rmult_le_compat_r; [apply Rabs_pos|].
      assert (1 <= Rnum.max 1 (vlength f * vlength f)) as C.
      { unfold Rnum.max. destruct (Rnum.ltb 1 _) eqn:L; [|lra].
        apply ltb_true in L. lra. }
      unfold Rdiv. rewrite Rabs_mult.
      rewrite <- (Rmult_1_r (Rabs strength)) at 2.
      apply Rmult_le_compat_l; [apply Rabs_pos|].
      rewrite Rabs_inv, Rabs_right by lra.
      pose proof (Rinv_le_contravar 1 _ Rlt_0_1 C) as Q.
      rewrite Rinv_1 in Q. exact Q. }
    pose proof (vlength_nonneg dir). pose proof (Rabs_pos m). nra.
Qed.

End ExactGenerators.


(* ================================================================== *)
(** ** The camera *)

Section ExactCamera.
Context {Rot : @Rotations Exact}.
Local Open Scope R_scope.

Ltac exact_cam :=
  cbn [num nofZ nadd nsub nopp nmul ndiv nsqrt nltb nleb nmax nmin nltInfinity
       nfloor Exact] in *.

Lemma followCamera_gap (cameraPosition : @Vector3 Exact) (rocket : @RocketState Exact Rot) :
  distanceTo (followCamera cameraPosition rocket) (targetCameraPosition rocket)
  = 95 / 100 * distanceTo cameraPosition (targetCameraPosition rocket).
Proof.
  unfold distanceTo, followCamera.
  set (t := targetCameraPosition rocket).
  assert (vsub (lerp cameraPosition t CAMERA.SMOOTHING) t
          = multiplyScalar (vsub cameraPosition t) (95 / 100)) as ->.
  { unfold vsub, lerp, multiplyScalar, CAMERA.SMOOTHING, lit. cbn [vx vy vz].
    exact_cam. f_equal; field. }
  rewrite vlength_scale. rewrite Rabs_right by lra. reflexivity.
Qed.

(** X23: in exact arithmetic the follow camera closes a twentieth of the
    gap in every frame of phase Playing: its distance to the position 15
    behind and 5 above the rocket is 95 % of what it was, so over [n]
    frames with the rocket at rest it shrinks by the factor 0.95 to the
    [n]; a camera at that position stays there. *)
Theorem camera_closes_in (cameraPosition : @Vector3 Exact)
    (rocket : @RocketState Exact Rot) (n : nat) :
  let goal := targetCameraPosition rocket in
  distanceTo (followCamera cameraPosition rocket) goal
  = 95 / 100 * distanceTo cameraPosition goal /\
  distanceTo (followAll cameraPosition (repeat rocket n)) goal
  = (95 / 100) ^ n * distanceTo cameraPosition goal /\
  followCamera goal rocket = goal.
Proof.
  cbn zeta. split; [apply followCamera_gap|]. split.
  - revert cameraPosition. induction n as [|n IH]; intros cameraPosition.
    + cbn [repeat followAll fold_left pow]. exact_cam. lra.
    + cbn [repeat followAll fold_left pow]. unfold followAll in IH.
      rewrite IH, followCamera_gap. exact_cam. ring.
  - unfold followCamera, lerp. destruct (targetCameraPosition rocket) as [a b c].
    cbn [vx vy vz]. exact_cam. f_equal; ring.
Qed.

End ExactCamera.

(* ================================================================== *)
(** ** Concrete runs *)

#[local] Set Warnings "-inexact-float".

(** C1, refuted as stated: after a lap of 41 seconds that ended at
    checkpoint 12, a [restartGame] that completes leaves the last-accepted
    checkpoint id at 12 and the best lap time at 41000 ms; and a
    [restartGame] whose track initialisation is to add a hazard throws
    and leaves the phase, the score and the lap as they are. *)
Lemma restartGame_keeps_checkpoint_and_best_lap :
  let s := store (run Run.lapThenRestart Run.twice) in
  let s' := store (run Run.lapThenRestart Run.toAbort) in
  phase s = READY /\ score s = 0%Z /\ lastCheckpointId s = 12%Z /\
  bestLapTime s = Some (41000%float : @num Float64) /\
  phase s' = PLAYING /\ score s' = 900%Z /\ lap s' = 2%Z.
Proof. repeat split. Qed.

(** C1 at work: the restart after a lap of 41 seconds. *)
Lemma restartGame_resets_race_witness :
  let state := store (run Run.lap41 Run.twice) in
  let g := rng (run Run.lap41 Run.twice) in
  let s := commit (fst (restartGame state g)) state in
  restartGame state g = (Normal s, snd (restartGame state g)) /\
  score state = 900%Z /\ phase s = READY /\ score s = 0%Z /\ lap s = 1%Z /\
  bestLapTime s = bestLapTime state.
Proof.
  intros state g s.
  assert (E : restartGame state g = (Normal s, snd (restartGame state g)))
    by reflexivity.
  split; [exact E|]. split; [reflexivity|].
  destruct (restartGame_resets_race state s g _ E) as (P & _ & Sc & L & _ & B).
  repeat split; assumption.
Defined.

(** C2 at work: checkpoint 3 again after 3 and 6 were accepted. *)
Lemma checkpoint_monotonicity_witness :
  (3 <= lastCheckpointId (passAll [3; 6]%Z (@initialState Float64 Straight)))%Z /\
  checkpointPassed 3 (passAll [3; 6]%Z (@initialState Float64 Straight))
  = passAll [3; 6]%Z (@initialState Float64 Straight).
Proof.
  assert (H : (3 <= lastCheckpointId
                      (passAll [3; 6]%Z (@initialState Float64 Straight)))%Z)
    by (vm_compute; discriminate).
  split; [exact H|].
  exact (proj2 (proj2 (checkpoint_monotonicity [3; 6]%Z 3 _ H))).
Defined.

(** C8, refuted as stated: in phase Ready, [checkpointPassed 3] awards
    100 points and records the id. *)
Lemma checkpointPassed_scores_when_ready :
  let s := checkpointPassed 3 (@initialState Float64 Straight) in
  phase s = READY /\ score s = 100%Z /\ lastCheckpointId s = 3%Z.
Proof. repeat split. Qed.

(** C8 at work: a frame before the game is started. *)
Lemma frame_outside_playing_witness :
  phase (store Run.begin) <> PLAYING /\
  store (step (Frame Run.tick Run.noKeys [Run.rock]) Run.begin)
  = store Run.begin.
Proof.
  assert (H : phase (store Run.begin) <> PLAYING) by (vm_compute; discriminate).
  split; [exact H|].
  exact (proj1 (frame_outside_playing Run.begin Run.tick Run.noKeys [Run.rock] H)).
Defined.

(** C5 at work: the window of segments 6 and 7. *)
Lemma track_window_connected_witness :
  nth_error (track (store (run Run.window67 Run.begin))) 0 = Some (Run.segment 0) /\
  nth_error (track (store (run Run.window67 Run.begin))) 1 = Some (Run.segment 1) /\
  map s_id (track (store (run Run.window67 Run.begin))) = [6; 7]%Z /\
  s_end (Run.segment 0) = s_start (Run.segment 1) /\
  s_id (Run.segment 1) = (s_id (Run.segment 0) + 1)%Z.
Proof.
  assert (A : nth_error (track (store (run Run.window67 Run.begin))) 0
              = Some (Run.segment 0)) by reflexivity.
  assert (B : nth_error (track (store (run Run.window67 Run.begin))) 1
              = Some (Run.segment 1)) by reflexivity.
  split; [exact A | split; [exact B|]]. split; [reflexivity|].
  exact (track_window_connected Run.window67 Run.draws 0%float 0
           (Run.segment 0) (Run.segment 1) A B).
Defined.

(** C7, refuted as stated: a step from z = 0 to z = -450 crosses the
    planes of the checkpoint segments 0 and 3 of the initial track; the
    id reported is 3, that of the last of them. *)
Lemma detectCollisions_reports_last_crossing :
  let t := track (store (run [StartGame] Run.begin)) in
  map s_id (filter (crosses Run.far Run.near) t) = [0; 3]%Z /\
  checkpoint (detectCollisions Run.far Run.near rocketSize t [] [])
  = mkCheckpoint true 3.
Proof. repeat split. Qed.





(* ================================================================== *)
(** ** Further concrete runs *)

(** The stream whose every draw is 0.9 lets no object be added. *)
Lemma stream_quietDraws : quietDraws (Run.stream []).
Proof. intros n. unfold Run.stream. destruct n; vm_compute; split; reflexivity. Qed.

(** With every draw 0.5, [startGame] is to add a hazard to segment 3: it
    throws, and the store stays as it was, in phase Ready with no
    track. *)
Lemma startGame_throws_on_hazard :
  fst (startGame (store Run.unlucky) (rng Run.unlucky))
  = Throw HAZARD_TYPES_is_not_defined /\
  store (step StartGame Run.unlucky) = store Run.unlucky /\
  phase (store (step StartGame Run.unlucky)) = READY /\
  track (store (step StartGame Run.unlucky)) = [].
Proof. repeat split. Qed.

(** A frame of a started game with the forward key held leaves the store
    as it is. *)
Lemma forward_key_moves_nothing :
  let w := run [StartGame] Run.begin in
  phase (store w) = PLAYING /\
  store (step (Frame Run.tick Run.forwardKey []) w) = store w.
Proof. split; reflexivity. Qed.

(** X5 at work: the window of a game just started. *)
Lemma window_never_empty_witness :
  phase (store (run [StartGame] Run.begin)) = PLAYING /\
  track (store (run [StartGame] Run.begin)) <> [] /\
  len (track (store (run [StartGame] Run.begin))) = 6%Z.
Proof.
  assert (P : phase (store (run [StartGame] Run.begin)) = PLAYING)
    by reflexivity.
  split; [exact P|]. split; [|reflexivity].
  exact (proj1 (window_never_empty (Rot := Straight) [StartGame] Run.draws 0%float P)).
Defined.

(** X6 at work: a frame inside a hazard. *)
Lemma health_never_rises_witness :
  let w := run (Run.inTheRock 1) Run.begin in
  let e := Frame Run.tick Run.noKeys [Run.rock] in
  isReset e = false /\
  (health (rocket (store (step e w))) <= health (rocket (store w)))%Z.
Proof.
  split; [reflexivity|].
  apply (health_never_rises (Rot := Straight)
           (Frame Run.tick Run.noKeys [Run.rock])
           (run (Run.inTheRock 1) Run.begin) eq_refl).
Defined.

(** The start segment has a length other than 0. *)
Lemma startSegment_proper : Forall proper [@startSegment Exact].
Proof.
  constructor; [|constructor]. unfold proper, startSegment. cbn.
  intros E. injection E as E. lra.
Qed.

(** X13 at work: the start segment alone. *)
Lemma checkTrackBoundaryCollision_nearest_witness :
  Forall proper [@startSegment Exact] /\
  Forall (fun s : @TrackSegment Exact => s_width s = 30%R) [startSegment] /\
  (checkTrackBoundaryCollision Scene.falling (@rocketSize Exact)
     [@startSegment Exact] = true <->
   forall seg, In seg [@startSegment Exact] ->
     (30 / 2 - @nmax Exact (vx (@rocketSize Exact)) (vz (@rocketSize Exact)) / 2
      - 2 / 10 < distanceToSegment Scene.falling seg)%R).
Proof.
  assert (A : Forall (fun s : @TrackSegment Exact => s_width s = 30%R)
                     [startSegment])
    by (constructor; [reflexivity | constructor]).
  split; [exact startSegment_proper|]. split; [exact A|].
  apply (checkTrackBoundaryCollision_nearest Scene.falling (@rocketSize Exact)
           [startSegment] 30%R startSegment_proper A).
  discriminate.
Defined.

(** X14 at work: the start segment alone is the nearest. *)
Lemma getClosestPointOnTrack_nearest_witness :
  Forall proper [@startSegment Exact] /\
  cl_segmentIndex (getClosestPointOnTrack [@startSegment Exact] Scene.falling) = 0%Z.
Proof.
  split; [exact startSegment_proper|].
  destruct (proj2 (getClosestPointOnTrack_nearest Scene.falling
                     [startSegment] 1%R startSegment_proper) ltac:(discriminate))
    as (seg & d & _ & B & _).
  unfold len in B. cbn [length] in B. lia.
Defined.

Lemma mid_unitDraws : unitDraws Scene.mid.
Proof. intros n. unfold Scene.mid. lra. Qed.

(** X17 at work: the objects of segment 3. *)
Lemma generated_ids_name_segment_witness :
  unitDraws Scene.mid /\
  Forall (fun h => (h_id h / 100 = 3)%Z)
         (fst (generateHazardsForSegment Scene.third (7 / 10)%R Scene.mid)) /\
  Forall (fun p => (p_id p / 100 = 3)%Z)
         (fst (generatePowerUpsForSegment Scene.third (3 / 10)%R Scene.mid)).
Proof.
  split; [exact mid_unitDraws|].
  destruct (generated_ids_name_segment Scene.third (7 / 10)%R (3 / 10)%R
              Scene.mid Scene.mid mid_unitDraws mid_unitDraws)
    as (_ & _ & _ & _ & _ & _ & H & P).
  split; (eapply Forall_impl; [|eassumption]); cbn beta; intros x Q; apply Q.
Defined.

(** X19 at work: a bounce off the floor at half the speed. *)
Lemma bounce_unit_normal_witness :
  dot Scene.floor Scene.floor = 1%R /\
  vlength (bounce Scene.falling Scene.floor (1 / 2)%R)
  = (Rabs (1 / 2) * vlength Scene.falling)%R.
Proof.
  assert (A : dot Scene.floor Scene.floor = 1%R)
    by (unfold dot, Scene.floor; cbn; ring).
  split; [exact A|].
  exact (proj1 (bounce_unit_normal Scene.falling Scene.floor (1 / 2)%R A)).
Defined.
